(** * PlantUML / term-CSV model comparison: extraction, normalisation, metrics

    A shallow embedding of [scripts/compare_plantuml_models.py] and
    [scripts/compare_terms_csv.py].

    - Python [str] values are sequences of code points ([list N]).
    - The character predicates Python consults ([str.isspace], [\w], [\s],
      [str.lower], IGNORECASE matching) are written out for the ASCII range;
      outside ASCII they are read from a table [T : unicode_tables], over
      which the whole development is parametric.
    - [re] patterns are regex syntax trees run by a backtracking matcher with
      Python's priorities (leftmost match, ordered alternatives, greedy and
      lazy repetition, captures, look-around).
    - Python sets and dicts are stdpp's [gset] and [gmap]; floats are the
      rationals they denote. *)

From Stdlib Require Import NArith ZArith QArith String Ascii Lia Lqa Bool.
From stdpp Require Import base option list gmap sets sorting.

Local Open Scope N_scope.

(** ** Characters and strings *)

Definition str := list N.

(** A string literal of the source, as code points. *)
Definition lit (s : string) : str := map N_of_ascii (list_ascii_of_string s).

(** What CPython's Unicode database says about the code points above U+007F. *)
Record unicode_tables := {
  (* Py_UNICODE_ISSPACE: used by str.strip, str.isspace and \s *)
  uni_isspace : N -> bool;
  (* Py_UNICODE_ISALNUM: used by \w *)
  uni_isalnum : N -> bool;
  (* str.lower on one code point, given the text before and after it
     (the context matters for the final-sigma rule) *)
  uni_lower : str -> N -> str -> str;
  (* IGNORECASE: does the text character (second argument) match the
     cased ASCII pattern literal (first argument)? *)
  uni_ignorecase : N -> N -> bool
}.

Definition in_range (lo hi c : N) : bool := (lo <=? c) && (c <=? hi).

Definition is_ascii (c : N) : bool := c <? 128.

Definition ascii_isspace (c : N) : bool := in_range 9 13 c || in_range 28 32 c.

Definition ascii_isupper (c : N) : bool := in_range 65 90 c.
Definition ascii_islower (c : N) : bool := in_range 97 122 c.
Definition ascii_isdigit (c : N) : bool := in_range 48 57 c.
Definition ascii_isalnum (c : N) : bool :=
  ascii_isupper c || ascii_islower c || ascii_isdigit c.

Definition ascii_lower (c : N) : N := if ascii_isupper c then c + 32 else c.

Definition underscore : N := 95.
Definition newline : N := 10.

Section Tables.

Variable T : unicode_tables.

Definition is_space (c : N) : bool :=
  if is_ascii c then ascii_isspace c else uni_isspace T c.

(** [\w]: alphanumeric or underscore. *)
Definition is_word (c : N) : bool :=
  if is_ascii c then ascii_isalnum c || (c =? underscore) else uni_isalnum T c.

Definition lower_char (before : str) (c : N) (after : str) : str :=
  if is_ascii c then [ascii_lower c] else uni_lower T before c after.

Fixpoint lower_from (before s : str) : str :=
  match s with
  | [] => []
  | c :: after => lower_char before c after ++ lower_from (before ++ [c]) after
  end.

(** [s.lower()] *)
Definition py_lower (s : str) : str := lower_from [] s.

Fixpoint lstrip (s : str) : str :=
  match s with
  | c :: s' => if is_space c then lstrip s' else s
  | [] => []
  end.

(** [s.strip()] *)
Definition py_strip (s : str) : str := rev (lstrip (rev (lstrip s))).

(** [s.replace(c, '')] for a one-character [c] *)
Definition remove_char (c : N) (s : str) : str := filter (fun x => x ≠ c) s.

(** [c in s] for a one-character [c] *)
Definition contains (c : N) (s : str) : bool := existsb (N.eqb c) s.

(** [s.split(sep)] for a one-character [sep]: never the empty list. *)
Fixpoint py_split (sep : N) (s : str) : list str :=
  match s with
  | [] => [[]]
  | c :: s' =>
      if c =? sep then [] :: py_split sep s'
      else match py_split sep s' with
           | w :: ws => (c :: w) :: ws
           | [] => [[c]]
           end
  end.

(** Truthiness of a string. *)
Definition nonempty (s : str) : bool :=
  match s with [] => false | _ :: _ => true end.

(** ** Regular expressions *)

Inductive citem :=
| ILit (c : N)          (* a literal character *)
| IWord                 (* \w *)
| ISpace.               (* \s *)

(** A pattern item that consumes exactly one character. *)
Inductive cset :=
| One (i : citem)
| Any                   (* . *)
| OneOf (l : list citem)    (* [...] *)
| NoneOf (l : list citem).  (* [^...] *)

Inductive regex :=
| Eps
| Chr (s : cset)
| Seq (r1 r2 : regex)
| Alt (r1 r2 : regex)                     (* r1|r2, r1 tried first *)
| Rep (greedy : bool) (least : nat) (s : cset)  (* s* s+ s*? s+? *)
| Opt (r : regex)                         (* (?:r)? *)
| Group (n : nat) (r : regex)             (* capturing group number n *)
| Bol                                     (* ^ *)
| Eol                                     (* $ *)
| NotBehind (s : cset)                    (* (?<!s) *)
| NotAhead (s : cset).                    (* (?!s) *)

Record flags := { ignorecase : bool; multiline : bool; dotall : bool }.

Definition no_flags := {| ignorecase := false; multiline := false; dotall := false |}.
Definition IGNORECASE := {| ignorecase := true; multiline := false; dotall := false |}.
Definition MULTILINE := {| ignorecase := false; multiline := true; dotall := false |}.
Definition DOTALL := {| ignorecase := false; multiline := false; dotall := true |}.
Definition IGNORECASE_DOTALL := {| ignorecase := true; multiline := false; dotall := true |}.

Definition ascii_isalpha (c : N) : bool := ascii_isupper c || ascii_islower c.

(** Does text character [c] match pattern literal [l]?  Only cased literals
    are affected by IGNORECASE. *)
Definition lit_matches (fl : flags) (l c : N) : bool :=
  if ignorecase fl && ascii_isalpha l then
    if is_ascii c then ascii_lower c =? ascii_lower l else uni_ignorecase T l c
  else c =? l.

Definition citem_mem (fl : flags) (i : citem) (c : N) : bool :=
  match i with
  | ILit l => lit_matches fl l c
  | IWord => is_word c
  | ISpace => is_space c
  end.

Definition cset_mem (fl : flags) (s : cset) (c : N) : bool :=
  match s with
  | One i => citem_mem fl i c
  | Any => dotall fl || negb (c =? newline)
  | OneOf l => existsb (fun i => citem_mem fl i c) l
  | NoneOf l => negb (existsb (fun i => citem_mem fl i c) l)
  end.

(** The matcher's position: the character just before it, its index, and the
    text still ahead. *)
Record cursor := { prev : option N; pos : nat; ahead : str }.

Definition start_of (s : str) : cursor := {| prev := None; pos := 0; ahead := s |}.

Definition advance (c : N) (rest : str) (cur : cursor) : cursor :=
  {| prev := Some c; pos := S (pos cur); ahead := rest |}.

(** Captured groups, most recent first. *)
Definition captures := list (nat * str).

Fixpoint group_of (caps : captures) (n : nat) : option str :=
  match caps with
  | [] => None
  | (k, s) :: caps' => if Nat.eqb k n then Some s else group_of caps' n
  end.

Definition at_bol (fl : flags) (cur : cursor) : bool :=
  match prev cur with
  | None => true
  | Some c => multiline fl && (c =? newline)
  end.

Definition at_eol (fl : flags) (cur : cursor) : bool :=
  match ahead cur with
  | [] => true
  | c :: rest => (c =? newline) && (multiline fl || negb (nonempty rest))
  end.

Section Exec.

Context {R : Type}.
Variable fl : flags.

(** Greedy repetition of one character class: take as many as possible, give
    back one at a time. *)
Fixpoint rep_greedy (s : cset) (least : nat) (cur : cursor) (text : str)
    (k : cursor -> option R) : option R :=
  match text with
  | c :: rest =>
      if cset_mem fl s c then
        match rep_greedy s (Nat.pred least) (advance c rest cur) rest k with
        | Some r => Some r
        | None => match least with O => k cur | S _ => None end
        end
      else match least with O => k cur | S _ => None end
  | [] => match least with O => k cur | S _ => None end
  end.

(** Lazy repetition: take as few as possible, one more on failure. *)
Fixpoint rep_lazy (s : cset) (least : nat) (cur : cursor) (text : str)
    (k : cursor -> option R) : option R :=
  match least with
  | O =>
      match k cur with
      | Some r => Some r
      | None =>
          match text with
          | c :: rest =>
              if cset_mem fl s c then rep_lazy s O (advance c rest cur) rest k
              else None
          | [] => None
          end
      end
  | S n =>
      match text with
      | c :: rest =>
          if cset_mem fl s c then rep_lazy s n (advance c rest cur) rest k
          else None
      | [] => None
      end
  end.

(** Backtracking matcher in continuation-passing style: [k] is the rest of
    the pattern; [None] makes the matcher try its next choice. *)
Fixpoint exec (r : regex) (cur : cursor) (caps : captures)
    (k : cursor -> captures -> option R) : option R :=
  match r with
  | Eps => k cur caps
  | Chr s =>
      match ahead cur with
      | c :: rest => if cset_mem fl s c then k (advance c rest cur) caps else None
      | [] => None
      end
  | Seq r1 r2 => exec r1 cur caps (fun cur' caps' => exec r2 cur' caps' k)
  | Alt r1 r2 =>
      match exec r1 cur caps k with
      | Some x => Some x
      | None => exec r2 cur caps k
      end
  | Rep true least s => rep_greedy s least cur (ahead cur) (fun cur' => k cur' caps)
  | Rep false least s => rep_lazy s least cur (ahead cur) (fun cur' => k cur' caps)
  | Opt r1 =>
      match exec r1 cur caps k with
      | Some x => Some x
      | None => k cur caps
      end
  | Group n r1 =>
      exec r1 cur caps (fun cur' caps' =>
        k cur' ((n, take (pos cur' - pos cur)%nat (ahead cur)) :: caps'))
  | Bol => if at_bol fl cur then k cur caps else None
  | Eol => if at_eol fl cur then k cur caps else None
  | NotBehind s =>
      match prev cur with
      | Some c => if cset_mem fl s c then None else k cur caps
      | None => k cur caps
      end
  | NotAhead s =>
      match ahead cur with
      | c :: _ => if cset_mem fl s c then None else k cur caps
      | [] => k cur caps
      end
  end.

End Exec.

(** A match object: the span and the groups. *)
Record rmatch := { m_start : nat; m_end : nat; m_groups : captures }.

Definition group (m : rmatch) (n : nat) : option str := group_of (m_groups m) n.

(** The match of [r] that starts exactly at [cur], if any. *)
Definition match_at (fl : flags) (r : regex) (cur : cursor) : option rmatch :=
  exec fl r cur [] (fun cur' caps =>
    Some {| m_start := pos cur; m_end := pos cur'; m_groups := caps |}).

(** [re.match(r, s)] *)
Definition re_match (fl : flags) (r : regex) (s : str) : option rmatch :=
  match_at fl r (start_of s).

(** Scan from [cur]; [skip] counts the characters still covered by the match
    found last. *)
Fixpoint scan (fl : flags) (r : regex) (cur : cursor) (text : str) (skip : nat)
    : list rmatch :=
  match text with
  | [] =>
      match skip, match_at fl r cur with
      | O, Some m => [m]
      | _, _ => []
      end
  | c :: rest =>
      match skip with
      | S n => scan fl r (advance c rest cur) rest n
      | O =>
          match match_at fl r cur with
          | Some m =>
              m :: scan fl r (advance c rest cur) rest
                     (Nat.pred (m_end m - m_start m))
          | None => scan fl r (advance c rest cur) rest O
          end
      end
  end.

(** [re.finditer(r, s)]: the non-overlapping matches, left to right. *)
Definition finditer (fl : flags) (r : regex) (s : str) : list rmatch :=
  scan fl r (start_of s) s O.

(** [re.sub(r, '', s)]: the text outside the matches. *)
Fixpoint erase (fl : flags) (r : regex) (cur : cursor) (text : str) (skip : nat)
    : str :=
  match text with
  | [] => []
  | c :: rest =>
      match skip with
      | S n => erase fl r (advance c rest cur) rest n
      | O =>
          match match_at fl r cur with
          | Some m =>
              match (m_end m - m_start m)%nat with
              | O => c :: erase fl r (advance c rest cur) rest O
              | S n => erase fl r (advance c rest cur) rest n
              end
          | None => c :: erase fl r (advance c rest cur) rest O
          end
      end
  end.

Definition re_sub_empty (fl : flags) (r : regex) (s : str) : str :=
  erase fl r (start_of s) s O.

(** The cursor after reading [w], with [rest] still ahead. *)
Fixpoint walk (cur : cursor) (w rest : str) : cursor :=
  match w with
  | [] => cur
  | c :: w' => walk (advance c (w' ++ rest) cur) w' rest
  end.

(** What a pattern can match, priorities aside: every result of [exec] is one
    of these. *)
Inductive matches (fl : flags)
    : regex -> cursor -> captures -> cursor -> captures -> Prop :=
| M_Eps cur caps : matches fl Eps cur caps cur caps
| M_Chr s c rest cur caps :
    ahead cur = c :: rest -> cset_mem fl s c = true ->
    matches fl (Chr s) cur caps (advance c rest cur) caps
| M_Seq r1 r2 cur caps cur1 caps1 cur2 caps2 :
    matches fl r1 cur caps cur1 caps1 -> matches fl r2 cur1 caps1 cur2 caps2 ->
    matches fl (Seq r1 r2) cur caps cur2 caps2
| M_Alt_l r1 r2 cur caps cur' caps' :
    matches fl r1 cur caps cur' caps' -> matches fl (Alt r1 r2) cur caps cur' caps'
| M_Alt_r r1 r2 cur caps cur' caps' :
    matches fl r2 cur caps cur' caps' -> matches fl (Alt r1 r2) cur caps cur' caps'
| M_Rep greedy least s cur caps w rest :
    ahead cur = w ++ rest -> Forall (fun c => cset_mem fl s c = true) w ->
    (least <= length w)%nat ->
    matches fl (Rep greedy least s) cur caps (walk cur w rest) caps
| M_Opt_some r cur caps cur' caps' :
    matches fl r cur caps cur' caps' -> matches fl (Opt r) cur caps cur' caps'
| M_Opt_none r cur caps : matches fl (Opt r) cur caps cur caps
| M_Group n r cur caps cur' caps' :
    matches fl r cur caps cur' caps' ->
    matches fl (Group n r) cur caps cur'
            ((n, take (pos cur' - pos cur)%nat (ahead cur)) :: caps')
| M_Bol cur caps : at_bol fl cur = true -> matches fl Bol cur caps cur caps
| M_Eol cur caps : at_eol fl cur = true -> matches fl Eol cur caps cur caps
| M_NotBehind s cur caps :
    (forall c, prev cur = Some c -> cset_mem fl s c = false) ->
    matches fl (NotBehind s) cur caps cur caps
| M_NotAhead s cur caps :
    (forall c rest, ahead cur = c :: rest -> cset_mem fl s c = false) ->
    matches fl (NotAhead s) cur caps cur caps.

(** Patterns without a capturing group. *)
Fixpoint groupless (r : regex) : bool :=
  match r with
  | Seq r1 r2 | Alt r1 r2 => groupless r1 && groupless r2
  | Opt r1 => groupless r1
  | Group _ _ => false
  | _ => true
  end.

(** The length of the longest prefix of [text] inside the class [s]. *)
Fixpoint run_length (fl : flags) (s : cset) (text : str) : nat :=
  match text with
  | c :: rest => if cset_mem fl s c then S (run_length fl s rest) else O
  | [] => O
  end.

(** A literal word of a pattern. *)
Fixpoint Str (s : str) : regex :=
  match s with
  | [] => Eps
  | [c] => Chr (One (ILit c))
  | c :: s' => Seq (Chr (One (ILit c))) (Str s')
  end.

Definition Star (s : cset) : regex := Rep true 0 s.
Definition Plus (s : cset) : regex := Rep true 1 s.
Definition LazyStar (s : cset) : regex := Rep false 0 s.

Definition Cat (rs : list regex) : regex := foldr Seq Eps rs.

(** The one character of a one-character literal. *)
Definition ch (s : string) : N := hd 0 (lit s).
Definition Lit (s : string) : regex := Str (lit s).

Definition ws : cset := One ISpace.
Definition word : cset := One IWord.

(** ** The identifier normaliser (both scripts) *)

(** [[^\w\s]] *)
Definition special_character : regex := Chr (NoneOf [IWord; ISpace]).
(** [\s+] *)
Definition whitespace_run : regex := Plus ws.

Definition normalize_identifier (identifier : str) : str :=
  if negb (nonempty identifier) then []
  else
    let identifier := py_strip identifier in
    let identifier := re_sub_empty no_flags special_character identifier in
    let identifier := py_lower identifier in
    let identifier := re_sub_empty no_flags whitespace_run identifier in
    remove_char underscore identifier.

Definition normalize_term (term : str) : str :=
  if negb (nonempty term) then []
  else
    let term := py_strip term in
    let term := re_sub_empty no_flags special_character term in
    let term := py_lower term in
    let term := re_sub_empty no_flags whitespace_run term in
    remove_char underscore term.

(** A character that a second normalisation pass leaves alone, as far as
    lower-casing and the removal of special characters go: it is a word or
    whitespace character and [str.lower] maps it to itself in every context. *)
Definition stable_char (d : N) : Prop :=
  is_word d || is_space d = true
  /\ forall before after, lower_char before d after = [d].

(** A character that lower-cases cleanly: if it is a word or whitespace
    character, [str.lower] maps it, in every context, to stable characters. *)
Definition lowers_cleanly (c : N) : Prop :=
  is_word c || is_space c = true ->
  forall before after, Forall stable_char (lower_char before c after).

(** ** compare_plantuml_models.py: the extractor *)

Record ModelElements := {
  classes : gset str;
  relationships : gset (str * str * str);
  attributes : gset (str * str)
}.

(** ['.*?$] under MULTILINE and [/\*.*?\*/] under DOTALL *)
Definition line_comment : regex := Cat [Lit "'"; LazyStar Any; Eol].
Definition block_comment : regex := Cat [Lit "/*"; LazyStar Any; Lit "*/"].

Definition remove_comments (content : str) : str :=
  re_sub_empty DOTALL block_comment (re_sub_empty MULTILINE line_comment content).

Definition quote : N := 34.
Definition apostrophe : N := 39.

(** A quoted name (group [q], the text between the double quotes) or a bare,
    possibly dot-qualified one (group [s], [[\w.]+]). *)
Definition CLASS (q s : nat) : regex :=
  Alt (Cat [Chr (One (ILit quote)); Group q (Plus (NoneOf [ILit quote]));
            Chr (One (ILit quote))])
      (Group s (Plus (OneOf [IWord; ILit (ch ".")]))).

(** [(?:\s+as\s+(\w+))?] *)
Definition ALIAS : regex := Opt (Cat [Plus ws; Lit "as"; Plus ws; Group 3 (Plus word)]).

Definition class_pattern : regex :=
  Cat [Alt (Lit "class")
         (Alt (Cat [Lit "abstract"; Plus ws; Lit "class"])
            (Alt (Lit "interface") (Lit "enum")));
       Plus ws; CLASS 1 2; ALIAS].

(** An optional quoted cardinality after optional spaces, and an optional
    label [(?:\s*:\s*[^\n]+)?]. *)
Definition CARD : regex :=
  Opt (Cat [Star ws; Chr (One (ILit quote)); Star (NoneOf [ILit quote]);
            Chr (One (ILit quote))]).
Definition LABEL : regex :=
  Opt (Cat [Star ws; Lit ":"; Star ws; Plus (NoneOf [ILit newline])]).

(** [{CLASS}{CARD}\s*(arrow){CARD}\s*{CLASS}{LABEL}] *)
Definition relationship_regex (arrow : regex) : regex :=
  Cat [CLASS 1 2; CARD; Star ws; Group 3 arrow; CARD; Star ws; CLASS 4 5; LABEL].

(** [(?<![<|*o])--(?![>|*o])] *)
Definition plain_line : regex :=
  Cat [NotBehind (OneOf [ILit (ch "<"); ILit (ch "|"); ILit (ch "*"); ILit (ch "o")]);
       Lit "--";
       NotAhead (OneOf [ILit (ch ">"); ILit (ch "|"); ILit (ch "*"); ILit (ch "o")])].

(** Each entry: the arrow token, the relationship type, [is_reverse]. *)
Definition arrow_lexicon : list (regex * str * bool) :=
  [ (Lit "<|--", lit "inheritance", true);
    (Lit "--|>", lit "inheritance", false);
    (Lit "<|..", lit "realization", true);
    (Lit "..|>", lit "realization", false);
    (Lit "*--", lit "composition", true);
    (Lit "--*", lit "composition", false);
    (Lit "o--", lit "aggregation", true);
    (Lit "--o", lit "aggregation", false);
    (Lit "-->", lit "association", false);
    (Lit "<--", lit "association", true);
    (plain_line, lit "association", false);
    (Lit "..>", lit "dependency", false);
    (Lit "<..", lit "dependency", true) ].

Definition relationship_patterns : list (regex * str * bool) :=
  map (fun '(arrow, rel_type, is_reverse) =>
         (relationship_regex arrow, rel_type, is_reverse)) arrow_lexicon.

(** [a if a else b] on two groups of a match ([None] and [''] are falsy).
    On a match of the extractor's patterns one of the two groups always
    holds a non-empty string (lemmas [class_pattern_groups],
    [relationship_groups] and [class_def_groups]), so the default is never
    the result. *)
Definition first_truthy (a b : option str) : str :=
  match a with
  | Some (c :: a') => c :: a'
  | _ => default [] b
  end.

(** [raw_name.split('.')[-1] if '.' in raw_name else raw_name] *)
Definition simple_name_of (raw_name : str) : str :=
  if contains (ch ".") raw_name then default [] (last (py_split (ch ".") raw_name))
  else raw_name.

(** The class key a match of [class_pattern] names. *)
Definition class_key (m : rmatch) : str :=
  let raw_name := first_truthy (group m 1) (group m 2) in
  normalize_identifier (simple_name_of raw_name).

Definition add_class (acc : gset str) (m : rmatch) : gset str :=
  let normalized_class := class_key m in
  if nonempty normalized_class then {[ normalized_class ]} ∪ acc else acc.

Definition extract_classes (content : str) : gset str :=
  foldl add_class ∅ (finditer IGNORECASE class_pattern content).

Definition left_key (m : rmatch) : str :=
  normalize_identifier (simple_name_of (first_truthy (group m 1) (group m 2))).
Definition right_key (m : rmatch) : str :=
  normalize_identifier (simple_name_of (first_truthy (group m 4) (group m 5))).

Definition add_relationship (rel_type : str) (is_reverse : bool)
    (acc : gset (str * str * str)) (m : rmatch) : gset (str * str * str) :=
  let left := left_key m in
  let right := right_key m in
  if nonempty left && nonempty right then
    let '(source, target) := if is_reverse then (right, left) else (left, right) in
    let normalized_rel := normalize_identifier rel_type in
    {[ (source, normalized_rel, target) ]} ∪ acc
  else acc.

(** The triple a match of a relationship pattern stands for, once both
    endpoints are known to be non-empty. *)
Definition stored_triple (rel_type : str) (is_reverse : bool) (m : rmatch)
    : str * str * str :=
  if is_reverse
  then (right_key m, normalize_identifier rel_type, left_key m)
  else (left_key m, normalize_identifier rel_type, right_key m).

Definition extract_relationships (content : str) : gset (str * str * str) :=
  foldl (fun acc '(pattern, rel_type, is_reverse) =>
           foldl (add_relationship rel_type is_reverse) acc
                 (finditer no_flags pattern content))
        ∅ relationship_patterns.

Definition class_def_pattern : regex :=
  Cat [Alt (Lit "class")
         (Alt (Cat [Lit "abstract"; Plus ws; Lit "class"]) (Lit "interface"));
       Plus ws; CLASS 1 2; ALIAS; Star ws; Lit "{";
       Group 4 (Star (NoneOf [ILit (ch "}")])); Lit "}"].

(** ['.*$], [^\{.*\}$], [^[-=]+$], [\{[^}]+\}\s*] *)
Definition inline_comment : regex := Cat [Lit "'"; Star Any; Eol].
Definition stereotype_line : regex := Cat [Bol; Lit "{"; Star Any; Lit "}"; Eol].
Definition separator_line : regex :=
  Cat [Bol; Plus (OneOf [ILit (ch "-"); ILit (ch "=")]); Eol].
Definition bracketed_modifier : regex :=
  Cat [Lit "{"; Plus (NoneOf [ILit (ch "}")]); Lit "}"; Star ws].

(** [^[+\-#~]?\s*(\w+)\s*(?::\s*.+)?(?:\s*=\s*.+)?$] *)
Definition attribute_pattern : regex :=
  Cat [Bol;
       Opt (Chr (OneOf [ILit (ch "+"); ILit (ch "-"); ILit (ch "#"); ILit (ch "~")]));
       Star ws; Group 1 (Plus word); Star ws;
       Opt (Cat [Lit ":"; Star ws; Plus Any]);
       Opt (Cat [Star ws; Lit "="; Star ws; Plus Any]);
       Eol].

Definition modifier_keywords : list str :=
  [lit "static"; lit "abstract"; lit "final"; lit "const"; lit "readonly";
   lit "virtual"; lit "override"].

Definition startswith (c : N) (s : str) : bool :=
  match s with
  | x :: _ => x =? c
  | [] => false
  end.

(** One pass of the loop over the lines of a class body: the normalised
    attribute name the line yields, or [None] where the loop moves on. *)
Definition line_attribute (line : str) : option str :=
  let line := py_strip line in
  if negb (nonempty line) then None
  else
    let line := py_strip (re_sub_empty no_flags inline_comment line) in
    if negb (nonempty line) then None
    else if contains (ch "(") line then None
    else if bool_decide (is_Some (re_match no_flags stereotype_line line)) then None
    else if startswith (ch "@") line then None
    else if bool_decide (is_Some (re_match no_flags separator_line line)) then None
    else
      let line := py_strip (re_sub_empty no_flags bracketed_modifier line) in
      if negb (nonempty line) then None
      else
        match re_match no_flags attribute_pattern line with
        | Some attr_match =>
            let attr_name := py_strip (default [] (group attr_match 1)) in
            if bool_decide (py_lower attr_name ∈ modifier_keywords) then None
            else Some (normalize_identifier attr_name)
        | None => None
        end.

Definition add_attribute (class_name : str) (acc : gset (str * str)) (line : str)
    : gset (str * str) :=
  match line_attribute line with
  | Some normalized_attr =>
      if nonempty normalized_attr && nonempty class_name
      then {[ (class_name, normalized_attr) ]} ∪ acc
      else acc
  | None => acc
  end.

(** The key that owns the attributes of a match of [class_def_pattern]. *)
Definition owner_key (m : rmatch) : str :=
  let raw_name :=
    match group m 3 with
    | Some (c :: alias) => c :: alias
    | _ => first_truthy (group m 1) (group m 2)
    end in
  normalize_identifier (simple_name_of raw_name).

Definition add_class_body (acc : gset (str * str)) (m : rmatch) : gset (str * str) :=
  let class_name := owner_key m in
  let attributes_block := default [] (group m 4) in
  foldl (add_attribute class_name) acc (py_split newline attributes_block).

Definition extract_attributes (content : str) : gset (str * str) :=
  foldl add_class_body ∅ (finditer IGNORECASE_DOTALL class_def_pattern content).

(** [parse_plantuml_file], from the text read from the file. *)
Definition parse_plantuml_file (text : str) : ModelElements :=
  let content := remove_comments text in
  {| classes := extract_classes content;
     relationships := extract_relationships content;
     attributes := extract_attributes content |}.

(** ** compare_plantuml_models.py: the metrics *)

Record MetricResult := {
  precision : Q;
  recall : Q;
  f1_score : Q;
  true_positives : nat;
  false_positives : nat;
  false_negatives : nat
}.

(** [a / b] on two counts. *)
Definition true_div (a b : nat) : Q := (inject_Z (Z.of_nat a) / inject_Z (Z.of_nat b))%Q.

Definition calculate_metrics `{Countable A} (reference evaluated : gset A)
    : MetricResult :=
  let tp := size (reference ∩ evaluated) in
  let fp := size (evaluated ∖ reference) in
  let fn := size (reference ∖ evaluated) in
  let precision := if (0 <? tp + fp)%nat then true_div tp (tp + fp) else 0%Q in
  let recall := if (0 <? tp + fn)%nat then true_div tp (tp + fn) else 0%Q in
  let f1_score :=
    if negb (Qle_bool (precision + recall) 0)
    then ((2 * precision * recall) / (precision + recall))%Q else 0%Q in
  {| precision := precision; recall := recall; f1_score := f1_score;
     true_positives := tp; false_positives := fp; false_negatives := fn |}.

(** The values one set of [compare_models] can hold: a class key (a string),
    a relationship (a 3-tuple) or an attribute (a 2-tuple). *)
Inductive element :=
| Class (c : str)
| Relationship (r : str * str * str)
| Attribute (a : str * str).

#[global] Instance element_eq_dec : EqDecision element.
Proof. solve_decision. Defined.

#[global] Instance element_countable : Countable element.
Proof.
  refine (inj_countable'
    (fun e => match e with
              | Class c => inl c
              | Relationship r => inr (inl r)
              | Attribute a => inr (inr a)
              end)
    (fun x => match x with
              | inl c => Class c
              | inr (inl r) => Relationship r
              | inr (inr a) => Attribute a
              end) _).
  intros []; reflexivity.
Defined.

(** [m.classes | m.relationships | m.attributes] *)
Definition all_elements (m : ModelElements) : gset element :=
  set_map Class (classes m) ∪ set_map Relationship (relationships m)
  ∪ set_map Attribute (attributes m).

Record Comparison := {
  class_metrics : MetricResult;
  relationship_metrics : MetricResult;
  attribute_metrics : MetricResult;
  overall_metrics : MetricResult
}.

(** One pass of the loop of [compare_models]. *)
Definition compare_model (reference model : ModelElements) : Comparison :=
  {| class_metrics := calculate_metrics (classes reference) (classes model);
     relationship_metrics :=
       calculate_metrics (relationships reference) (relationships model);
     attribute_metrics := calculate_metrics (attributes reference) (attributes model);
     overall_metrics := calculate_metrics (all_elements reference) (all_elements model) |}.

Definition compare_models (reference_text : str) (model_texts : list str)
    : list Comparison :=
  let reference := parse_plantuml_file reference_text in
  map (fun text => compare_model reference (parse_plantuml_file text)) model_texts.

(** ** compare_terms_csv.py: term extraction *)

Inductive error :=
| ValueError (available_columns : option (list str))
| AttributeError.

Inductive outcome (A : Type) :=
| Returns (a : A)
| Raises (e : error).
Arguments Returns {A} a.
Arguments Raises {A} e.

Definition bind {A B} (x : outcome A) (f : A -> outcome B) : outcome B :=
  match x with
  | Returns a => f a
  | Raises e => Raises e
  end.

(** A [for] loop whose body may raise. *)
Definition for_each {A S} (body : S -> A -> outcome S) (l : list A) (init : S)
    : outcome S :=
  foldl (fun acc a => bind acc (fun s => body s a)) (Returns init) l.

(** The input is what [csv.reader] yields for the file: one list of fields
    per line, the header first.  [csv.DictReader] takes the first record as
    [fieldnames] ([None] for an empty file). *)
Definition fieldnames_of (records : list (list str)) : option (list str) := head records.

(** One row of [csv.DictReader]: [dict(zip(fieldnames, row))], then [None]
    (the default [restval]) under every field name the record is too short
    for.  The entry under [restkey] for surplus fields, which no lookup by
    column name can reach, is left out. *)
Definition row_dict (fieldnames : list str) (record : list str) : gmap str (option str) :=
  let d := foldl (fun d '(key, value) => <[key := Some value]> d) ∅
                 (zip fieldnames record) in
  foldl (fun d key => <[key := None]> d) d (drop (length record) fieldnames).

(** The rows [csv.DictReader] yields after the header: blank records are
    skipped. *)
Definition dict_rows (records : list (list str)) : list (gmap str (option str)) :=
  map (row_dict (default [] (fieldnames_of records)))
      (filter (fun record => record ≠ []) (tail records)).

Definition is_term_column (col : str) : bool :=
  bool_decide (py_strip (py_lower col) = lit "term").

Definition find_term_column (fieldnames : option (list str)) : option str :=
  match fieldnames with
  | Some (col :: cols) => List.find is_term_column (col :: cols)
  | _ => None
  end.

(** [row.get(term_column, '').strip()] *)
Definition row_term (term_column : str) (row : gmap str (option str)) : outcome str :=
  match default (Some []) (row !! term_column) with
  | Some value => Returns (py_strip value)
  | None => Raises AttributeError
  end.

(** One pass of the loop of [extract_terms_from_csv]. *)
Definition record_term (term_column : str) (terms : gset str)
    (row : gmap str (option str)) : outcome (gset str) :=
  bind (row_term term_column row) (fun term =>
    if nonempty term then
      let normalized := normalize_term term in
      if nonempty normalized
      then Returns ({[ normalized ]} ∪ terms)
      else Returns terms
    else Returns terms).

Definition extract_terms_from_csv (records : list (list str)) : outcome (gset str) :=
  match find_term_column (fieldnames_of records) with
  | None => Raises (ValueError (fieldnames_of records))
  | Some term_column => for_each (record_term term_column) (dict_rows records) ∅
  end.

(** One pass of the loop of [extract_terms_with_original]. *)
Definition record_original (term_column : str) (terms : gmap str str)
    (row : gmap str (option str)) : outcome (gmap str str) :=
  bind (row_term term_column row) (fun term =>
    if nonempty term then
      let normalized := normalize_term term in
      if nonempty normalized
      then Returns (<[ normalized := term ]> terms)
      else Returns terms
    else Returns terms).

Definition extract_terms_with_original (records : list (list str))
    : outcome (gmap str str) :=
  match find_term_column (fieldnames_of records) with
  | None => Raises (ValueError (fieldnames_of records))
  | Some term_column => for_each (record_original term_column) (dict_rows records) ∅
  end.

End Tables.

Arguments calculate_metrics {A _ _} reference evaluated.
Arguments Returns {A} a.
Arguments Raises {A} e.

(** Entries of CPython's tables for U+0080..U+00FF, U+0130, U+0131, U+017F,
    U+0307 and U+212A; a code point outside these has no entry here (no
    class, no case). *)
Definition cpython_fragment : unicode_tables :=
  {| uni_isspace c := (c =? 133) || (c =? 160);
     uni_isalnum c :=
       (c =? 170) || (c =? 178) || (c =? 179) || (c =? 181) || (c =? 185)
       || (c =? 186) || in_range 188 190 c || in_range 192 214 c
       || in_range 216 246 c || in_range 248 255 c
       || (c =? 304) || (c =? 305) || (c =? 383) || (c =? 8490);
     uni_lower _ c _ :=
       if in_range 192 222 c && negb (c =? 215) then [c + 32]
       else if c =? 304 then [105; 775]
       else if c =? 8490 then [107]
       else [c];
     uni_ignorecase l c :=
       ((ascii_lower l =? 105) && ((c =? 304) || (c =? 305)))
       || ((ascii_lower l =? 115) && (c =? 383))
       || ((ascii_lower l =? 107) && (c =? 8490)) |}.

(** ** compare_plantuml_models.py: the itemised differences *)

(** [a <= b] on two strings: by code point, a proper prefix first. *)
Fixpoint str_leb (a b : str) : bool :=
  match a, b with
  | [], _ => true
  | _ :: _, [] => false
  | x :: a', y :: b' =>
      if x <? y then true else if y <? x then false else str_leb a' b'
  end.

Definition str_le (a b : str) : Prop := str_leb a b = true.

#[global] Instance str_le_dec : RelDecision str_le.
Proof. intros a b. unfold str_le. apply _. Defined.

(** [sorted(l)] on a list of strings. *)
Definition sorted (l : list str) : list str := merge_sort str_le l.

(** The f-strings [s -t-> d] and [c.a]. *)
Definition render_relationship (r : str * str * str) : str :=
  let '(s, t, d) := r in s ++ lit " -" ++ t ++ lit "-> " ++ d.
Definition render_attribute (ca : str * str) : str :=
  let '(c, a) := ca in c ++ lit "." ++ a.

Record Differences := {
  missing_classes : list str;
  extra_classes : list str;
  missing_relationships : list str;
  extra_relationships : list str;
  missing_attributes : list str;
  extra_attributes : list str
}.

(** The [differences] entry of one comparison of [compare_models]. *)
Definition differences (reference model : ModelElements) : Differences :=
  {| missing_classes := sorted (elements (classes reference ∖ classes model));
     extra_classes := sorted (elements (classes model ∖ classes reference));
     missing_relationships :=
       sorted (map render_relationship
                 (elements (relationships reference ∖ relationships model)));
     extra_relationships :=
       sorted (map render_relationship
                 (elements (relationships model ∖ relationships reference)));
     missing_attributes :=
       sorted (map render_attribute
                 (elements (attributes reference ∖ attributes model)));
     extra_attributes :=
       sorted (map render_attribute
                 (elements (attributes model ∖ attributes reference))) |}.

(** The six relationship types. *)
Definition relationship_kinds : list str :=
  [lit "inheritance"; lit "realization"; lit "composition"; lit "aggregation";
   lit "association"; lit "dependency"].

(** ** Line comments, read off the text *)

(** The text with every line cut at its first apostrophe; [in_comment] says
    whether an apostrophe was seen on the current line. *)
Fixpoint cut_lines (in_comment : bool) (text : str) : str :=
  match text with
  | [] => []
  | c :: rest =>
      if in_comment then
        if c =? newline then c :: cut_lines false rest else cut_lines true rest
      else if c =? apostrophe then cut_lines true rest
      else c :: cut_lines false rest
  end.

(** The characters of [text] up to the end of the line. *)
Fixpoint line_rest (text : str) : nat :=
  match text with
  | c :: rest => if c =? newline then O else S (line_rest rest)
  | [] => O
  end.

(** ** compare_terms_csv.py: metrics and comparison *)

Module TermsCsv.

Record MetricResult := {
  precision : Q;
  recall : Q;
  f1_score : Q;
  true_positives : nat;
  false_positives : nat;
  false_negatives : nat;
  tp_terms : gset str;
  fp_terms : gset str;
  fn_terms : gset str
}.

(** Truthiness of an optional dict argument: given and not empty. *)
Definition truthy_dict (d : option (gmap str str)) : bool :=
  match d with
  | Some m => bool_decide (m ≠ ∅)
  | None => false
  end.

(** [d.get(t, t)] *)
Definition original_of (d : option (gmap str str)) (t : str) : str :=
  match d with
  | Some m => default t (m !! t)
  | None => t
  end.

Definition calculate_metrics (reference evaluated : gset str)
    (reference_original evaluated_original : option (gmap str str)) : MetricResult :=
  let tp_normalized := reference ∩ evaluated in
  let fp_normalized := evaluated ∖ reference in
  let fn_normalized := reference ∖ evaluated in
  let '(tp_terms, fp_terms, fn_terms) :=
    if truthy_dict reference_original && truthy_dict evaluated_original then
      (set_map (original_of evaluated_original) tp_normalized : gset str,
       set_map (original_of evaluated_original) fp_normalized : gset str,
       set_map (original_of reference_original) fn_normalized : gset str)
    else (tp_normalized, fp_normalized, fn_normalized) in
  let tp := size tp_normalized in
  let fp := size fp_normalized in
  let fn := size fn_normalized in
  let precision := if (0 <? tp + fp)%nat then true_div tp (tp + fp) else 0%Q in
  let recall := if (0 <? tp + fn)%nat then true_div tp (tp + fn) else 0%Q in
  let f1_score :=
    if negb (Qle_bool (precision + recall) 0)
    then ((2 * precision * recall) / (precision + recall))%Q else 0%Q in
  {| precision := precision; recall := recall; f1_score := f1_score;
     true_positives := tp; false_positives := fp; false_negatives := fn;
     tp_terms := tp_terms; fp_terms := fp_terms; fn_terms := fn_terms |}.

(** The dict [compare_csv_files] returns. *)
Record CsvComparison := {
  file_type : str;
  reference_path : str;
  model_path : str;
  reference_count : nat;
  model_count : nat;
  metric_precision : Q;
  metric_recall : Q;
  metric_f1_score : Q;
  metric_true_positives : nat;
  metric_false_positives : nat;
  metric_false_negatives : nat;
  matched_terms : list str;
  detail_false_positives : list str;
  detail_false_negatives : list str
}.

Section WithTables.

Variable T : unicode_tables.
(** [round(x, 4)], which the development leaves open. *)
Variable round4 : Q -> Q.

(** [compare_csv_files]; each file is given by its path and by the records
    [csv.reader] yields for it. *)
Definition compare_csv_files (reference_path : str)
    (reference_records : list (list str)) (model_path : str)
    (model_records : list (list str)) (file_type : str) : outcome CsvComparison :=
  bind (extract_terms_with_original T reference_records) (fun reference_original =>
  bind (extract_terms_with_original T model_records) (fun model_original =>
    let reference_terms := dom reference_original in
    let model_terms := dom model_original in
    let metrics := calculate_metrics reference_terms model_terms
                     (Some reference_original) (Some model_original) in
    Returns
      {| file_type := file_type;
         reference_path := reference_path;
         model_path := model_path;
         reference_count := size reference_terms;
         model_count := size model_terms;
         metric_precision := round4 (precision metrics);
         metric_recall := round4 (recall metrics);
         metric_f1_score := round4 (f1_score metrics);
         metric_true_positives := true_positives metrics;
         metric_false_positives := false_positives metrics;
         metric_false_negatives := false_negatives metrics;
         matched_terms := sorted (elements (tp_terms metrics));
         detail_false_positives := sorted (elements (fp_terms metrics));
         detail_false_negatives := sorted (elements (fn_terms metrics)) |})).

End WithTables.

End TermsCsv.

(** * Properties *)

#[local] Set Warnings "-clear-no-such-hyp".

(** ** The matcher yields only what the pattern allows *)

Section Matcher.

Variable T : unicode_tables.
Variable fl : flags.

Lemma walk_ahead w : forall cur rest,
  ahead cur = w ++ rest ->
  ahead (walk cur w rest) = rest /\ pos (walk cur w rest) = (pos cur + length w)%nat.
Proof.
  induction w as [|c w IH]; intros cur rest Hc; simpl.
  - split; [assumption | lia].
  - destruct (IH (advance c (w ++ rest) cur) rest eq_refl) as [-> ->].
    simpl. split; [reflexivity | lia].
Qed.

Lemma rep_greedy_sound {R} s (k : cursor -> option R) x text :
  forall least cur,
  rep_greedy T fl s least cur text k = Some x -> ahead cur = text ->
  exists w rest, text = w ++ rest
    /\ Forall (fun c => cset_mem T fl s c = true) w
    /\ (least <= length w)%nat /\ k (walk cur w rest) = Some x.
Proof.
  induction text as [|c rest IH]; intros least cur Hx Hc; simpl in Hx.
  - destruct least; [|discriminate].
    exists [], []. repeat split; auto.
  - destruct (cset_mem T fl s c) eqn:Hm.
    + destruct (rep_greedy T fl s (Nat.pred least) (advance c rest cur) rest k) eqn:Hr.
      * injection Hx as ->.
        destruct (IH _ _ Hr eq_refl) as (w & rest' & -> & Hw & Hl & Hk).
        exists (c :: w), rest'. repeat split; auto.
        simpl; lia.
      * destruct least; [|discriminate].
        exists [], (c :: rest). repeat split; auto.
    + destruct least; [|discriminate].
      exists [], (c :: rest). repeat split; auto.
Qed.

Lemma rep_lazy_sound {R} s (k : cursor -> option R) x text :
  forall least cur,
  rep_lazy T fl s least cur text k = Some x -> ahead cur = text ->
  exists w rest, text = w ++ rest
    /\ Forall (fun c => cset_mem T fl s c = true) w
    /\ (least <= length w)%nat /\ k (walk cur w rest) = Some x.
Proof.
  induction text as [|c rest IH]; intros least cur Hx Hc.
  - destruct least; simpl in Hx.
    + destruct (k cur) eqn:Hk; [|discriminate]. injection Hx as ->.
      exists [], []. repeat split; auto.
    + discriminate.
  - destruct least; simpl in Hx.
    + destruct (k cur) eqn:Hk.
      * injection Hx as ->. exists [], (c :: rest). repeat split; auto.
      * destruct (cset_mem T fl s c) eqn:Hm; [|discriminate].
        destruct (IH _ _ Hx eq_refl) as (w & rest' & -> & Hw & Hl & Hk').
        exists (c :: w), rest'. repeat split; auto. simpl; lia.
    + destruct (cset_mem T fl s c) eqn:Hm; [|discriminate].
      destruct (IH _ _ Hx eq_refl) as (w & rest' & -> & Hw & Hl & Hk').
      exists (c :: w), rest'. repeat split; auto. simpl; lia.
Qed.

Lemma exec_sound {R} r : forall cur caps (k : cursor -> captures -> option R) x,
  exec T fl r cur caps k = Some x ->
  exists cur' caps', matches T fl r cur caps cur' caps' /\ k cur' caps' = Some x.
Proof.
  induction r; intros cur caps k x Hx; simpl in Hx.
  - eauto using matches.
  - destruct (ahead cur) as [|c rest] eqn:Ha; [discriminate|].
    destruct (cset_mem T fl s c) eqn:Hm; [|discriminate].
    eauto using matches.
  - apply IHr1 in Hx as (cur1 & caps1 & H1 & Hx).
    apply IHr2 in Hx as (cur2 & caps2 & H2 & Hx).
    eauto using matches.
  - destruct (exec T fl r1 cur caps k) eqn:H1.
    + injection Hx as ->. apply IHr1 in H1 as (? & ? & ? & ?). eauto using matches.
    + apply IHr2 in Hx as (? & ? & ? & ?). eauto using matches.
  - destruct greedy.
    + apply rep_greedy_sound in Hx as (w & rest & Hw & HF & Hl & Hk); [|reflexivity].
      eauto using matches.
    + apply rep_lazy_sound in Hx as (w & rest & Hw & HF & Hl & Hk); [|reflexivity].
      eauto using matches.
  - destruct (exec T fl r cur caps k) eqn:H1.
    + injection Hx as ->. apply IHr in H1 as (? & ? & ? & ?). eauto using matches.
    + eauto using matches.
  - apply IHr in Hx as (cur' & caps' & H1 & Hx). eauto using matches.
  - destruct (at_bol fl cur) eqn:E; [|discriminate]. eauto using matches.
  - destruct (at_eol fl cur) eqn:E; [|discriminate]. eauto using matches.
  - exists cur, caps.
    split; [|destruct (prev cur); [destruct (cset_mem T fl s n)|]; congruence].
    constructor. intros c Hc. rewrite Hc in Hx.
    destruct (cset_mem T fl s c); [discriminate | reflexivity].
  - exists cur, caps.
    split; [|destruct (ahead cur); [|destruct (cset_mem T fl s n)]; congruence].
    constructor. intros c rest Hc. rewrite Hc in Hx.
    destruct (cset_mem T fl s c); [discriminate | reflexivity].
Qed.

Lemma match_at_sound r cur m :
  match_at T fl r cur = Some m ->
  exists cur', matches T fl r cur [] cur' (m_groups m).
Proof.
  unfold match_at. intros Hm.
  apply exec_sound in Hm as (cur' & caps' & Hmt & [= <-]).
  exists cur'. assumption.
Qed.

Lemma scan_sound r m text : forall cur skip,
  m ∈ scan T fl r cur text skip ->
  exists cur0 cur', matches T fl r cur0 [] cur' (m_groups m).
Proof.
  induction text as [|c rest IH]; intros cur skip Hin; simpl in Hin.
  - destruct skip; [|inversion Hin].
    destruct (match_at T fl r cur) eqn:E; [|inversion Hin].
    apply list_elem_of_singleton in Hin as ->.
    apply match_at_sound in E as (cur' & ?). eauto.
  - destruct skip; [|eauto].
    destruct (match_at T fl r cur) eqn:E; [|eauto].
    apply elem_of_cons in Hin as [-> | Hin]; [|eauto].
    apply match_at_sound in E as (cur' & ?). eauto.
Qed.

Lemma finditer_sound r m s :
  m ∈ finditer T fl r s -> exists cur0 cur', matches T fl r cur0 [] cur' (m_groups m).
Proof. apply scan_sound. Qed.

Lemma matches_groupless r cur caps cur' caps' :
  matches T fl r cur caps cur' caps' -> groupless r = true -> caps' = caps.
Proof.
  induction 1; simpl; intros Hg; try reflexivity;
    try (apply andb_prop in Hg as [Hg1 Hg2]); try discriminate; auto.
  rewrite IHmatches2, IHmatches1; auto.
Qed.

Lemma matches_group_rep n greedy least s cur caps cur' caps' :
  matches T fl (Group n (Rep greedy least s)) cur caps cur' caps' ->
  exists w, caps' = (n, w) :: caps
    /\ Forall (fun c => cset_mem T fl s c = true) w /\ (least <= length w)%nat.
Proof.
  intros Hm. inversion Hm as [| | | | | | | |n' r' c1 k1 c2 k2 Hr| | | |]; subst.
  inversion Hr as [| | | | |g l s' c k w rest Hah HF Hle| | | | | | |]; subst.
  destruct (walk_ahead w cur rest) as [_ ->]; [assumption|].
  exists w. replace (pos cur + length w - pos cur)%nat with (length w) by lia.
  rewrite Hah, take_app_length. auto.
Qed.

End Matcher.

(** Take a match of a concrete pattern apart, down to its groups. *)
Ltac inv_matches :=
  repeat match goal with
  | H : matches _ _ (Group _ (Rep _ _ _)) _ _ _ _ |- _ =>
      apply matches_group_rep in H as (? & -> & ? & ?)
  | H : matches _ _ ?r _ _ _ _ |- _ =>
      first [ apply matches_groupless in H; [subst | reflexivity]
            | inversion H; subst; clear H ]
  end.

(** ** The groups of the extractor's matches *)

Section Groups.

Variable T : unicode_tables.

Ltac nonempty_groups :=
  repeat match goal with
  | H : (1 <= length ?w)%nat |- _ => destruct w; simpl in H; [lia|]; clear H
  end.

Lemma word_has_no_dot fl w :
  Forall (fun c => cset_mem T fl word c = true) w -> contains (ch ".") w = false.
Proof.
  induction 1 as [|c w Hc _ IH]; [reflexivity|].
  change (contains (ch ".") (c :: w)) with ((ch "." =? c) || contains (ch ".") w).
  rewrite IH, orb_false_r. apply N.eqb_neq. intros <-.
  vm_compute in Hc. discriminate Hc.
Qed.

(** Every match of [class_pattern] names a class: one of the two name groups
    holds a non-empty string. *)
Lemma class_pattern_groups m content :
  m ∈ finditer T IGNORECASE class_pattern content ->
  first_truthy (group m 1) (group m 2) <> [].
Proof.
  intros Hm. apply finditer_sound in Hm as (cur0 & cur' & Hm).
  unfold group. destruct m as [s e caps]; simpl in *.
  cbv [class_pattern Cat foldr CLASS ALIAS Plus Star LazyStar] in Hm.
  inv_matches; nonempty_groups; simpl; discriminate.
Qed.

Lemma arrow_lexicon_groupless arrow rel_type is_reverse :
  (arrow, rel_type, is_reverse) ∈ arrow_lexicon -> groupless arrow = true.
Proof.
  unfold arrow_lexicon. rewrite !elem_of_cons, elem_of_nil.
  intros Hin. repeat destruct Hin as [[= -> _ _] | Hin]; try reflexivity.
  contradiction.
Qed.

(** Every match of a relationship pattern names both endpoints. *)
Lemma relationship_groups arrow rel_type is_reverse m content :
  (arrow, rel_type, is_reverse) ∈ arrow_lexicon ->
  m ∈ finditer T no_flags (relationship_regex arrow) content ->
  first_truthy (group m 1) (group m 2) <> []
  /\ first_truthy (group m 4) (group m 5) <> [].
Proof.
  intros Hg Hm. apply arrow_lexicon_groupless in Hg.
  apply finditer_sound in Hm as (cur0 & cur' & Hm).
  unfold group. destruct m as [s e caps]; simpl in *.
  cbv [relationship_regex Cat foldr CLASS CARD LABEL Plus Star LazyStar] in Hm.
  repeat match goal with
  | H : matches _ _ (Group 3 arrow) _ _ _ _ |- _ =>
      inversion H; subst; clear H
  | H : matches _ _ arrow _ _ _ _ |- _ =>
      apply matches_groupless in H; [subst | assumption]
  | H : matches _ _ (Group _ (Rep _ _ _)) _ _ _ _ |- _ =>
      apply matches_group_rep in H as (? & -> & ? & ?)
  | H : matches _ _ ?r _ _ _ _ |- _ =>
      first [ apply matches_groupless in H; [subst | reflexivity]
            | inversion H; subst; clear H ]
  end;
  nonempty_groups; simpl; split; discriminate.
Qed.

(** Every match of [class_def_pattern] names a class and holds a body; an
    alias, when there is one, is a non-empty run of word characters. *)
Lemma class_def_groups m content :
  m ∈ finditer T IGNORECASE_DOTALL class_def_pattern content ->
  first_truthy (group m 1) (group m 2) <> []
  /\ (exists body, group m 4 = Some body)
  /\ (group m 3 = None \/
      exists alias, group m 3 = Some alias /\ alias <> []
                    /\ contains (ch ".") alias = false).
Proof.
  intros Hm. apply finditer_sound in Hm as (cur0 & cur' & Hm).
  unfold group. destruct m as [s e caps]; simpl in *.
  cbv [class_def_pattern Cat foldr CLASS ALIAS Plus Star LazyStar] in Hm.
  inv_matches; nonempty_groups; simpl;
    (split; [discriminate | split; [eauto |]]);
    first [ left; reflexivity
          | right; eexists; split; [reflexivity | split; [discriminate |]];
            eapply word_has_no_dot; eassumption ].
Qed.

End Groups.

(** ** What the extraction loops collect *)

Section Extraction.

Variable T : unicode_tables.

Lemma nonempty_true (s : str) : nonempty s = true <-> s <> [].
Proof. destruct s; simpl; split; congruence. Qed.

(** A loop that only ever adds to a set: the result holds what was there
    and what some pass added. *)
Lemma elem_of_foldl_step {A B : Type} `{Countable B}
    (step : gset B -> A -> gset B) (P : A -> B -> Prop) :
  (forall acc a y, y ∈ step acc a <-> y ∈ acc \/ P a y) ->
  forall l acc y, y ∈ foldl step acc l <-> y ∈ acc \/ exists a, a ∈ l /\ P a y.
Proof.
  intros Hstep l. induction l as [|a l IH]; intros acc y; simpl.
  - split; [auto | intros [? | (a & Ha & _)]; [assumption | inversion Ha]].
  - rewrite IH, Hstep. split.
    + intros [[? | ?] | (a' & Ha' & ?)]; eauto using list_elem_of_here, list_elem_of_further.
    + intros [? | (a' & Ha' & ?)]; [auto|].
      apply elem_of_cons in Ha' as [-> | Ha']; eauto.
Qed.

Lemma elem_of_add_class acc m y :
  y ∈ add_class T acc m <-> y ∈ acc \/ (class_key T m = y /\ y <> []).
Proof.
  unfold add_class. destruct (nonempty (class_key T m)) eqn:E.
  - apply nonempty_true in E. set_solver.
  - assert (class_key T m = []) by (destruct (class_key T m); [reflexivity | discriminate]).
    set_solver.
Qed.

Lemma elem_of_extract_classes content y :
  y ∈ extract_classes T content <->
  exists m, m ∈ finditer T IGNORECASE class_pattern content
            /\ class_key T m = y /\ y <> [].
Proof.
  unfold extract_classes.
  rewrite (elem_of_foldl_step _ _ (elem_of_add_class)). set_solver.
Qed.

Lemma elem_of_add_relationship rel_type is_reverse acc m y :
  y ∈ add_relationship T rel_type is_reverse acc m <->
  y ∈ acc \/ (left_key T m <> [] /\ right_key T m <> []
              /\ y = stored_triple T rel_type is_reverse m).
Proof.
  unfold add_relationship, stored_triple.
  destruct (nonempty (left_key T m)) eqn:El, (nonempty (right_key T m)) eqn:Er;
    simpl; rewrite <- ?nonempty_true, ?El, ?Er;
    destruct is_reverse; set_solver.
Qed.

Lemma elem_of_extract_relationships content y :
  y ∈ extract_relationships T content <->
  exists arrow rel_type is_reverse m,
    (arrow, rel_type, is_reverse) ∈ arrow_lexicon
    /\ m ∈ finditer T no_flags (relationship_regex arrow) content
    /\ left_key T m <> [] /\ right_key T m <> []
    /\ y = stored_triple T rel_type is_reverse m.
Proof.
  unfold extract_relationships, relationship_patterns.
  rewrite (elem_of_foldl_step _
    (fun '(pattern, rel_type, is_reverse) y =>
       exists m, m ∈ finditer T no_flags pattern content
                 /\ left_key T m <> [] /\ right_key T m <> []
                 /\ y = stored_triple T rel_type is_reverse m)).
  - split.
    + intros [Hy | ([[pattern rel_type] is_reverse] & Hin & m & Hm)]; [set_solver|].
      apply list_elem_of_fmap in Hin as ([[arrow rt] rev] & [= -> -> ->] & Hin).
      eauto 10.
    + intros (arrow & rel_type & is_reverse & m & Hin & Hm).
      right. exists (relationship_regex arrow, rel_type, is_reverse).
      split; [|eauto].
      apply list_elem_of_fmap. exists (arrow, rel_type, is_reverse). auto.
  - intros acc [[pattern rel_type] is_reverse] z.
    apply (elem_of_foldl_step _ _ (elem_of_add_relationship rel_type is_reverse)).
Qed.

Lemma elem_of_add_attribute class_name acc line y :
  y ∈ add_attribute T class_name acc line <->
  y ∈ acc \/ exists attr, line_attribute T line = Some attr /\ attr <> []
                          /\ class_name <> [] /\ y = (class_name, attr).
Proof.
  unfold add_attribute. destruct (line_attribute T line) as [attr|].
  - destruct (nonempty attr) eqn:Ea, (nonempty class_name) eqn:Ec; simpl.
    + apply nonempty_true in Ea, Ec.
      rewrite elem_of_union, elem_of_singleton. split.
      * intros [-> | ?]; [right; eauto 8 | left; assumption].
      * intros [? | (a & [= <-] & _ & _ & ->)]; auto.
    + split; [auto|]. intros [? | (a & _ & _ & Hc & _)]; [assumption|].
      apply nonempty_true in Hc. congruence.
    + split; [auto|]. intros [? | (a & [= <-] & Ha & _)]; [assumption|].
      apply nonempty_true in Ha. congruence.
    + split; [auto|]. intros [? | (a & _ & _ & Hc & _)]; [assumption|].
      apply nonempty_true in Hc. congruence.
  - split; [auto | intros [? | (a & [=] & _)]; assumption].
Qed.

Lemma elem_of_add_class_body acc m y :
  y ∈ add_class_body T acc m <->
  y ∈ acc \/ exists line attr,
      line ∈ py_split newline (default [] (group m 4))
      /\ line_attribute T line = Some attr /\ attr <> []
      /\ owner_key T m <> [] /\ y = (owner_key T m, attr).
Proof.
  unfold add_class_body.
  rewrite (elem_of_foldl_step _ _ (elem_of_add_attribute (owner_key T m))).
  split; (intros [? | ?]; [left; assumption | right]); naive_solver.
Qed.

Lemma elem_of_extract_attributes content y :
  y ∈ extract_attributes T content <->
  exists m line attr,
    m ∈ finditer T IGNORECASE_DOTALL class_def_pattern content
    /\ line ∈ py_split newline (default [] (group m 4))
    /\ line_attribute T line = Some attr /\ attr <> []
    /\ owner_key T m <> [] /\ y = (owner_key T m, attr).
Proof.
  unfold extract_attributes.
  rewrite (elem_of_foldl_step _ _ elem_of_add_class_body).
  split; [intros [? | ?]; [set_solver | naive_solver] | naive_solver].
Qed.

End Extraction.

(** ** The extracted model *)

Section Model.

Variable T : unicode_tables.

(** The relationship-type words are their own canonical keys. *)
Lemma lexicon_kind_normal arrow rel_type is_reverse :
  (arrow, rel_type, is_reverse) ∈ arrow_lexicon ->
  normalize_identifier T rel_type = rel_type /\ rel_type <> [].
Proof.
  unfold arrow_lexicon. rewrite !elem_of_cons, elem_of_nil.
  intros Hin.
  repeat destruct Hin as [[= _ -> _] | Hin];
    try (split; [vm_compute; reflexivity | discriminate]).
  contradiction.
Qed.

(** C9: no empty canonical key enters a model.  For every document, every
    extracted class key is a non-empty string, both endpoints and the kind of
    every stored relationship are non-empty, and so are the owner and the
    name of every stored attribute. *)
Theorem no_empty_canonical_key (text : str) :
  (forall c, c ∈ classes (parse_plantuml_file T text) -> c <> [])
  /\ (forall source kind target,
        (source, kind, target) ∈ relationships (parse_plantuml_file T text) ->
        source <> [] /\ kind <> [] /\ target <> [])
  /\ (forall owner attr,
        (owner, attr) ∈ attributes (parse_plantuml_file T text) ->
        owner <> [] /\ attr <> []).
Proof.
  unfold parse_plantuml_file; cbn [classes relationships attributes].
  split; [|split].
  - intros c Hc. apply elem_of_extract_classes in Hc as (m & _ & _ & Hne).
    exact Hne.
  - intros source kind target Hr.
    apply elem_of_extract_relationships in Hr
      as (arrow & rel_type & is_reverse & m & Hlex & _ & Hl & Hr & Heq).
    apply lexicon_kind_normal in Hlex as [Hk Hne].
    unfold stored_triple in Heq. rewrite Hk in Heq.
    destruct is_reverse; injection Heq as -> -> ->; auto.
  - intros owner attr Ha.
    apply elem_of_extract_attributes in Ha
      as (m & line & a & _ & _ & _ & Hattr & Hown & [= -> ->]).
    auto.
Qed.

(** C2: relationships are stored in semantic source -> target order.  For
    every document, the stored triples are exactly those of the matches of the
    thirteen arrow patterns with two non-empty endpoints, where a match of a
    reverse-spelled arrow (the six with the arrowhead or diamond on the left)
    is stored as (right endpoint, kind, left endpoint) and any other as
    (left endpoint, kind, right endpoint); the texts `A <|-- B` and
    `B --|> A` both extract to exactly (normalize(B), inheritance,
    normalize(A)). *)
Theorem relationships_in_semantic_order (text : str) :
  (forall source kind target,
     (source, kind, target) ∈ relationships (parse_plantuml_file T text) <->
     exists (arrow : regex) (is_reverse : bool) (m : rmatch),
       (arrow, kind, is_reverse) ∈ arrow_lexicon
       /\ m ∈ finditer T no_flags (relationship_regex arrow) (remove_comments T text)
       /\ left_key T m <> [] /\ right_key T m <> []
       /\ (source, target) = if is_reverse then (right_key T m, left_key T m)
                             else (left_key T m, right_key T m))
  /\ map fst (filter (fun entry => snd entry = true) arrow_lexicon)
     = [ (Lit "<|--", lit "inheritance"); (Lit "<|..", lit "realization");
         (Lit "*--", lit "composition"); (Lit "o--", lit "aggregation");
         (Lit "<--", lit "association"); (Lit "<..", lit "dependency") ]
  /\ relationships (parse_plantuml_file T (lit "A <|-- B"))
     = {[ (normalize_identifier T (lit "B"), lit "inheritance",
           normalize_identifier T (lit "A")) ]}
  /\ relationships (parse_plantuml_file T (lit "B --|> A"))
     = {[ (normalize_identifier T (lit "B"), lit "inheritance",
           normalize_identifier T (lit "A")) ]}.
Proof.
  split; [|split; [reflexivity | split; vm_compute; reflexivity]].
  intros source kind target.
  unfold parse_plantuml_file; cbn [relationships].
  rewrite elem_of_extract_relationships. split.
  - intros (arrow & rel_type & is_reverse & m & Hlex & Hm & Hl & Hr & Heq).
    destruct (lexicon_kind_normal _ _ _ Hlex) as [Hk _].
    unfold stored_triple in Heq. rewrite Hk in Heq.
    exists arrow, is_reverse, m.
    destruct is_reverse; injection Heq as -> -> ->; auto.
  - intros (arrow & is_reverse & m & Hlex & Hm & Hl & Hr & Heq).
    destruct (lexicon_kind_normal _ _ _ Hlex) as [Hk _].
    exists arrow, kind, is_reverse, m. repeat split; auto.
    unfold stored_triple. rewrite Hk.
    destruct is_reverse; injection Heq as -> ->; reflexivity.
Qed.

(** The attributes of a class body aliased [alias] belong to the key of the
    alias. *)
Lemma owner_key_alias m content alias :
  m ∈ finditer T IGNORECASE_DOTALL class_def_pattern content ->
  group m 3 = Some alias ->
  owner_key T m = normalize_identifier T alias.
Proof.
  intros Hm Ha. destruct (class_def_groups T m content Hm) as (_ & _ & [Hn | Hal]).
  - congruence.
  - destruct Hal as (alias' & Ha' & Hne & Hdot).
    assert (alias' = alias) as -> by congruence.
    unfold owner_key, simple_name_of. rewrite Ha.
    destruct alias as [|c alias]; [contradiction|]. rewrite Hdot. reflexivity.
Qed.

(** C10 (as amended): alias asymmetry between entity and attribute
    extraction.  Take a declaration [class X as Y { body }] of a document, as
    the class loop matches it ([m]) and as the attribute loop matches it
    ([m'], same X and Y).  If the normalised simple name of X is not empty it
    is in the extracted classes; the class loop adds nothing but that key for
    [m], so it does not add the normalisation of Y when the two differ; every
    attribute the attribute loop adds for [m'] is owned by the normalisation
    of Y.  And there is a model with an attribute whose owner is no class of
    that model. *)
Theorem alias_asymmetry (text : str) (m m' : rmatch) (Y : str) :
  m ∈ finditer T IGNORECASE class_pattern (remove_comments T text) ->
  m' ∈ finditer T IGNORECASE_DOTALL class_def_pattern (remove_comments T text) ->
  group m' 1 = group m 1 -> group m' 2 = group m 2 ->
  group m 3 = Some Y -> group m' 3 = Some Y ->
  let X := first_truthy (group m 1) (group m 2) in
  let key_X := normalize_identifier T (simple_name_of X) in
  let key_Y := normalize_identifier T Y in
  (key_X <> [] -> key_X ∈ classes (parse_plantuml_file T text))
  /\ (forall acc, key_Y <> key_X -> key_Y ∉ acc -> key_Y ∉ add_class T acc m)
  /\ (forall acc owner attr,
        (owner, attr) ∈ add_class_body T acc m' ->
        (owner, attr) ∈ acc \/ owner = key_Y)
  /\ (let example :=
        parse_plantuml_file T (lit "class Order as O { id }") in
      (lit "o", lit "id") ∈ attributes example /\ (lit "o" ∉ classes example)
      /\ classes example = {[ lit "order" ]}).
Proof.
  intros Hm Hm' H1 H2 H3 H3' X key_X key_Y.
  split; [|split; [|split]].
  - intros Hne. unfold parse_plantuml_file; cbn [classes].
    apply elem_of_extract_classes. exists m. auto.
  - intros acc Hdiff Hacc Hin.
    apply elem_of_add_class in Hin as [Hin | [Hk _]]; [contradiction|].
    apply Hdiff. symmetry. exact Hk.
  - intros acc owner attr Hin.
    apply elem_of_add_class_body in Hin
      as [Hin | (line & a & _ & _ & _ & _ & [= -> ->])]; [left; exact Hin|].
    right. eapply owner_key_alias; eassumption.
  - assert (Hex : parse_plantuml_file T (lit "class Order as O { id }")
                  = {| classes := {[ lit "order" ]}; relationships := ∅;
                       attributes := {[ (lit "o", lit "id") ]} |})
      by (vm_compute; reflexivity).
    cbv zeta. rewrite Hex; cbn [classes attributes].
    split; [set_solver | split; [|reflexivity]].
    rewrite elem_of_singleton. vm_compute. discriminate.
Qed.

End Model.

(** ** The set comparator *)

Section Comparator.

Context {A : Type} `{Countable A}.

Lemma true_div_self n : (0 < n)%nat -> (true_div n n == 1)%Q.
Proof.
  intros Hn. unfold true_div. apply Qmult_inv_r.
  unfold Qeq, inject_Z; simpl. lia.
Qed.

Lemma size_nonempty_pos (S : gset A) : S <> ∅ -> (0 < size S)%nat.
Proof.
  intros HS. destruct (size S) eqn:E; [|lia].
  apply size_empty_inv in E. apply leibniz_equiv in E. contradiction.
Qed.

(** C4: comparator identity and the empty-empty case.  A non-empty set
    compared with itself gives precision = recall = f1 = 1 with no false
    positive and no false negative; the empty set compared with the empty
    set gives precision = recall = f1 = 0 and tp = fp = fn = 0. *)
Theorem calculate_metrics_identity (S : gset A) :
  S <> ∅ ->
  ((precision (calculate_metrics S S) == 1)%Q
   /\ (recall (calculate_metrics S S) == 1)%Q
   /\ (f1_score (calculate_metrics S S) == 1)%Q
   /\ false_positives (calculate_metrics S S) = 0%nat
   /\ false_negatives (calculate_metrics S S) = 0%nat)
  /\ calculate_metrics (∅ : gset A) ∅ =
     {| precision := 0; recall := 0; f1_score := 0;
        true_positives := 0; false_positives := 0; false_negatives := 0 |}.
Proof.
  intros HS. apply size_nonempty_pos in HS. split.
  - unfold calculate_metrics;
      cbn [precision recall f1_score false_positives false_negatives].
    assert (S ∩ S = S) as -> by set_solver.
    rewrite difference_diag_L, size_empty, Nat.add_0_r.
    destruct (0 <? size S)%nat eqn:E; [|apply Nat.ltb_ge in E; lia].
    pose proof (true_div_self _ HS) as Hd.
    assert (Hs : (true_div (size S) (size S) + true_div (size S) (size S) == 2)%Q)
      by (rewrite Hd; reflexivity).
    destruct (Qle_bool _ 0) eqn:Hle.
    + apply Qle_bool_iff in Hle. rewrite Hs in Hle.
      unfold Qle in Hle; simpl in Hle; lia.
    + cbn [negb]. repeat split; try assumption.
      rewrite Hs, Hd. reflexivity.
  - unfold calculate_metrics.
    assert ((∅ : gset A) ∩ ∅ = ∅) as -> by set_solver.
    assert ((∅ : gset A) ∖ ∅ = ∅) as -> by set_solver.
    rewrite size_empty. reflexivity.
Qed.

(** C5: comparator asymmetry.  Swapping reference and candidate keeps the
    true-positive count, swaps the false-positive and false-negative counts,
    and swaps precision and recall. *)
Theorem calculate_metrics_swap (R C : gset A) :
  true_positives (calculate_metrics C R) = true_positives (calculate_metrics R C)
  /\ false_positives (calculate_metrics C R) = false_negatives (calculate_metrics R C)
  /\ false_negatives (calculate_metrics C R) = false_positives (calculate_metrics R C)
  /\ precision (calculate_metrics C R) = recall (calculate_metrics R C)
  /\ recall (calculate_metrics C R) = precision (calculate_metrics R C).
Proof.
  unfold calculate_metrics; cbn.
  rewrite (comm_L (∩) C R). repeat split; reflexivity.
Qed.

End Comparator.

Section Overall.

Lemma size_set_map_inj {A B : Type} `{Countable A, Countable B} (f : A -> B) :
  Inj (=) (=) f -> forall X : gset A, size (set_map f X : gset B) = size X.
Proof.
  intros Hf X. induction X as [|x X Hx IH] using set_ind_L.
  - rewrite set_map_empty, !size_empty. reflexivity.
  - rewrite set_map_union_L, set_map_singleton_L.
    rewrite !size_union, !size_singleton, IH by set_solver. reflexivity.
Qed.

#[local] Instance Class_inj : Inj (=) (=) Class.
Proof. intros x y [= ->]. reflexivity. Qed.
#[local] Instance Relationship_inj : Inj (=) (=) Relationship.
Proof. intros x y [= ->]. reflexivity. Qed.
#[local] Instance Attribute_inj : Inj (=) (=) Attribute.
Proof. intros x y [= ->]. reflexivity. Qed.

Lemma size_all_elements c r a :
  size (all_elements {| classes := c; relationships := r; attributes := a |})
  = (size c + size r + size a)%nat.
Proof.
  unfold all_elements; cbn [classes relationships attributes].
  rewrite !size_union by set_solver.
  rewrite !size_set_map_inj by apply _. reflexivity.
Qed.

Lemma all_elements_intersection m m' :
  all_elements m ∩ all_elements m'
  = all_elements {| classes := classes m ∩ classes m';
                    relationships := relationships m ∩ relationships m';
                    attributes := attributes m ∩ attributes m' |}.
Proof. unfold all_elements; cbn [classes relationships attributes]. set_solver. Qed.

Lemma all_elements_difference m m' :
  all_elements m ∖ all_elements m'
  = all_elements {| classes := classes m ∖ classes m';
                    relationships := relationships m ∖ relationships m';
                    attributes := attributes m ∖ attributes m' |}.
Proof. unfold all_elements; cbn [classes relationships attributes]. set_solver. Qed.

(** C3: the overall metric is a micro-average.  In the unions compared for
    the overall figure no class key equals a relationship or an attribute and
    no relationship equals an attribute, so the overall true-positive,
    false-positive and false-negative counts are the sums of the per-kind
    counts. *)
Theorem overall_is_micro_average (reference model : ModelElements) :
  let cmp := compare_model reference model in
  (forall c r a, Class c <> Relationship r /\ Class c <> Attribute a
                 /\ Relationship r <> Attribute a)
  /\ (forall x, x ∈ all_elements reference ∪ all_elements model ->
        (exists c, x = Class c /\ c ∈ classes reference ∪ classes model)
        \/ (exists r, x = Relationship r
                      /\ r ∈ relationships reference ∪ relationships model)
        \/ (exists a, x = Attribute a /\ a ∈ attributes reference ∪ attributes model))
  /\ true_positives (overall_metrics cmp) =
       (true_positives (class_metrics cmp)
        + true_positives (relationship_metrics cmp)
        + true_positives (attribute_metrics cmp))%nat
  /\ false_positives (overall_metrics cmp) =
       (false_positives (class_metrics cmp)
        + false_positives (relationship_metrics cmp)
        + false_positives (attribute_metrics cmp))%nat
  /\ false_negatives (overall_metrics cmp) =
       (false_negatives (class_metrics cmp)
        + false_negatives (relationship_metrics cmp)
        + false_negatives (attribute_metrics cmp))%nat.
Proof.
  cbn. split; [|split; [|split; [|split]]].
  - intros c r a. repeat split; discriminate.
  - unfold all_elements. set_solver.
  - rewrite all_elements_intersection, size_all_elements. reflexivity.
  - rewrite all_elements_difference, size_all_elements. reflexivity.
  - rewrite all_elements_difference, size_all_elements. reflexivity.
Qed.

End Overall.

(** ** The normaliser *)

Section Normaliser.

Variable T : unicode_tables.

(** A property of every ASCII code point, checked on all 128 of them. *)
Lemma ascii_forall (p : N -> bool) :
  forallb p (map N.of_nat (seq 0 128)) = true ->
  forall c, is_ascii c = true -> p c = true.
Proof.
  intros Hall c Hc. unfold is_ascii in Hc. apply N.ltb_lt in Hc.
  rewrite forallb_forall in Hall. apply Hall.
  apply in_map_iff. exists (N.to_nat c). split; [apply N2Nat.id|].
  apply in_seq. lia.
Qed.

Lemma lstrip_Forall (Q : N -> Prop) s : Forall Q s -> Forall Q (lstrip T s).
Proof.
  induction 1 as [|c s Hc Hs IH]; simpl; [constructor|].
  destruct (is_space T c); [assumption | constructor; assumption].
Qed.

Lemma py_strip_Forall (Q : N -> Prop) s : Forall Q s -> Forall Q (py_strip T s).
Proof.
  intros Hs. unfold py_strip.
  apply Forall_rev, lstrip_Forall, Forall_rev, lstrip_Forall, Hs.
Qed.

Lemma lstrip_id s : Forall (fun c => is_space T c = false) s -> lstrip T s = s.
Proof. destruct 1 as [|c s Hc _]; simpl; [reflexivity | rewrite Hc; reflexivity]. Qed.

Lemma py_strip_id s : Forall (fun c => is_space T c = false) s -> py_strip T s = s.
Proof.
  intros Hs. unfold py_strip.
  rewrite (lstrip_id s Hs), (lstrip_id (rev s)) by (apply Forall_rev, Hs).
  apply rev_involutive.
Qed.

(** [re.sub] of a one-character class deletes the characters of the class. *)
Lemma erase_chr fl s text : forall cur,
  ahead cur = text ->
  erase T fl (Chr s) cur text 0 = List.filter (fun c => negb (cset_mem T fl s c)) text.
Proof.
  induction text as [|c rest IH]; intros cur Hc; [reflexivity|].
  simpl. unfold match_at; simpl. rewrite Hc.
  destruct (cset_mem T fl s c); simpl.
  - replace (S (pos cur) - pos cur)%nat with 1%nat by lia.
    apply IH. reflexivity.
  - f_equal. apply IH. reflexivity.
Qed.

(** A greedy run, when nothing after it can fail, takes the longest prefix. *)
Lemma rep_greedy_run {R} fl s (g : nat -> R) text : forall least cur,
  rep_greedy T fl s least cur text (fun cur' => Some (g (pos cur')))
  = if (least <=? run_length T fl s text)%nat
    then Some (g (pos cur + run_length T fl s text)%nat) else None.
Proof.
  induction text as [|c rest IH]; intros least cur; simpl.
  - destruct least; simpl; [rewrite Nat.add_0_r|]; reflexivity.
  - destruct (cset_mem T fl s c).
    + rewrite IH. cbn [advance pos].
      rewrite <- plus_n_Sm.
      destruct least as [|least]; cbn [Nat.pred Nat.leb]; [reflexivity|].
      destruct (least <=? run_length T fl s rest)%nat; reflexivity.
    + destruct least; simpl; [rewrite Nat.add_0_r|]; reflexivity.
Qed.

Lemma filter_drop_run fl s text :
  List.filter (fun c => negb (cset_mem T fl s c)) (drop (run_length T fl s text) text)
  = List.filter (fun c => negb (cset_mem T fl s c)) text.
Proof.
  induction text as [|c rest IH]; [reflexivity|].
  simpl. destruct (cset_mem T fl s c) eqn:E; simpl; rewrite ?E; simpl;
    [exact IH | reflexivity].
Qed.

(** [re.sub] of [s+] deletes the characters of the class [s]. *)
Lemma erase_plus fl s text : forall cur skip,
  ahead cur = text ->
  erase T fl (Plus s) cur text skip
  = List.filter (fun c => negb (cset_mem T fl s c)) (drop skip text).
Proof.
  induction text as [|c rest IH]; intros cur skip Hc.
  - destruct skip; reflexivity.
  - destruct skip as [|skip]; simpl; [|apply IH; reflexivity].
    unfold match_at, Plus; simpl. rewrite Hc.
    rewrite (rep_greedy_run fl s
               (fun e => {| m_start := pos cur; m_end := e; m_groups := [] |})).
    simpl. destruct (cset_mem T fl s c); simpl.
    + replace (pos cur + S (run_length T fl s rest) - pos cur)%nat
        with (S (run_length T fl s rest)) by lia.
      rewrite IH by reflexivity. apply filter_drop_run.
    + f_equal. rewrite IH by reflexivity. reflexivity.
Qed.

Lemma filter_id {X} (p : X -> bool) l : Forall (fun x => p x = true) l -> List.filter p l = l.
Proof. induction 1 as [|x l Hx _ IH]; simpl; [|rewrite Hx, IH]; reflexivity. Qed.

Lemma remove_char_id c s : Forall (fun x => x <> c) s -> remove_char c s = s.
Proof.
  unfold remove_char. induction 1 as [|x l Hx _ IH]; [reflexivity|].
  rewrite (filter_cons_True (fun y => y <> c) x l Hx). f_equal. exact IH.
Qed.

(** The normaliser as a pipeline of filters. *)
Lemma normalize_identifier_pipeline x :
  normalize_identifier T x
  = remove_char underscore
      (List.filter (fun c => negb (is_space T c))
         (py_lower T
            (List.filter (fun c => is_word T c || is_space T c) (py_strip T x)))).
Proof.
  unfold normalize_identifier.
  destruct x as [|c x]; [reflexivity|]. cbn [nonempty negb].
  unfold re_sub_empty, special_character, whitespace_run.
  rewrite erase_chr by reflexivity.
  rewrite erase_plus by reflexivity. cbn [drop].
  assert (Hf : forall l, List.filter (fun c => negb (cset_mem T no_flags (NoneOf [IWord; ISpace]) c)) l
                         = List.filter (fun c => is_word T c || is_space T c) l).
  { intros l. apply List.filter_ext. intros a. simpl.
    rewrite orb_false_r, negb_involutive. reflexivity. }
  rewrite Hf. reflexivity.
Qed.

Lemma lower_from_stable z : forall before,
  Forall (lowers_cleanly T) z ->
  Forall (fun c => is_word T c || is_space T c = true) z ->
  Forall (stable_char T) (lower_from T before z).
Proof.
  induction z as [|c z IH]; intros before Hclean Hkept; [constructor|].
  inversion Hclean as [|? ? Hc Hclean']; subst.
  inversion Hkept as [|? ? Hk Hkept']; subst.
  simpl. apply Forall_app. split; [apply Hc, Hk | apply IH; assumption].
Qed.

Lemma lower_from_fixed y : forall before,
  Forall (stable_char T) y -> lower_from T before y = y.
Proof.
  induction y as [|d y IH]; intros before Hy; [reflexivity|].
  inversion Hy as [|? ? [_ Hd] Hy']; subst.
  simpl. rewrite Hd, IH by assumption. reflexivity.
Qed.

(** What a normal form is made of, when the input lower-cases cleanly. *)
Lemma normalize_identifier_stable x :
  Forall (lowers_cleanly T) x ->
  Forall (fun d => stable_char T d /\ is_space T d = false /\ d <> underscore)
         (normalize_identifier T x).
Proof.
  intros Hx. rewrite normalize_identifier_pipeline.
  assert (Hlow : Forall (stable_char T)
            (py_lower T (List.filter (fun c => is_word T c || is_space T c)
                                     (py_strip T x)))).
  { apply lower_from_stable.
    - apply incl_Forall with (l1 := py_strip T x);
        [apply incl_filter | apply py_strip_Forall, Hx].
    - apply Forall_forall. intros c Hc. apply list_elem_of_In, filter_In in Hc.
      apply Hc. }
  rewrite Forall_forall in Hlow. apply Forall_forall. intros d Hin.
  unfold remove_char in Hin. apply list_elem_of_filter in Hin as [Hu Hin].
  apply list_elem_of_In, filter_In in Hin as [Hin Hs].
  apply negb_true_iff in Hs. apply list_elem_of_In in Hin. auto.
Qed.

Lemma normalize_identifier_fixed y :
  Forall (fun d => stable_char T d /\ is_space T d = false /\ d <> underscore) y ->
  normalize_identifier T y = y.
Proof.
  intros Hy. rewrite normalize_identifier_pipeline.
  rewrite py_strip_id
    by (eapply Forall_impl; [exact Hy|]; intros d Hd; apply Hd).
  rewrite (filter_id (fun c => is_word T c || is_space T c) y)
    by (eapply Forall_impl; [exact Hy|]; intros d [[Hd _] _]; exact Hd).
  unfold py_lower. rewrite lower_from_fixed
    by (eapply Forall_impl; [exact Hy|]; intros d Hd; apply Hd).
  rewrite (filter_id (fun c => negb (is_space T c)) y)
    by (eapply Forall_impl; [exact Hy|]; intros d (_ & -> & _); reflexivity).
  apply remove_char_id.
  eapply Forall_impl; [exact Hy|]. intros d Hd. apply Hd.
Qed.

(** Every ASCII character lower-cases cleanly. *)
Lemma ascii_lowers_cleanly c : is_ascii c = true -> lowers_cleanly T c.
Proof.
  intros Hc Hkept before after. unfold lower_char. rewrite Hc.
  assert (Hl : is_ascii (ascii_lower c) = true)
    by (clear Hkept; revert c Hc; apply ascii_forall; vm_compute; reflexivity).
  constructor; [|constructor]. split.
  - unfold is_word, is_space in *. rewrite Hc in Hkept. rewrite Hl.
    assert (Hall : forall c, is_ascii c = true ->
              implb (ascii_isalnum c || (c =? underscore) || ascii_isspace c)
                (ascii_isalnum (ascii_lower c) || (ascii_lower c =? underscore)
                 || ascii_isspace (ascii_lower c)) = true)
      by (apply ascii_forall; vm_compute; reflexivity).
    specialize (Hall c Hc). rewrite Hkept in Hall. exact Hall.
  - intros before' after'. unfold lower_char. rewrite Hl. f_equal.
    apply N.eqb_eq. clear Hkept Hl. revert c Hc.
    apply ascii_forall. vm_compute. reflexivity.
Qed.

Lemma normalize_term_is_normalize_identifier x :
  normalize_term T x = normalize_identifier T x.
Proof. reflexivity. Qed.

(** C6 (as amended): the normaliser is idempotent on input that lower-cases
    cleanly.  For every string x whose word and whitespace characters are
    mapped by [str.lower] to word or whitespace characters that [str.lower]
    leaves unchanged, normalising the normal form of x gives it back, for
    [normalize_identifier] and for [normalize_term]. *)
Theorem normalize_idempotent_on_clean_input (x : str) :
  Forall (lowers_cleanly T) x ->
  normalize_identifier T (normalize_identifier T x) = normalize_identifier T x
  /\ normalize_term T (normalize_term T x) = normalize_term T x.
Proof.
  intros Hx. change (normalize_term T) with (normalize_identifier T).
  split; apply normalize_identifier_fixed, normalize_identifier_stable, Hx.
Qed.

(** Every ASCII string is such an input. *)
Lemma ascii_input_is_clean x :
  Forall (fun c => is_ascii c = true) x -> Forall (lowers_cleanly T) x.
Proof. intros Hx. eapply Forall_impl; [exact Hx | exact ascii_lowers_cleanly]. Qed.

End Normaliser.

(** ** Comments are gone before any line of a class body is read *)

Section Bodies.

Variable T : unicode_tables.










Lemma line_comment_needs_apostrophe cur c rest :
  ahead cur = c :: rest -> c <> apostrophe ->
  match_at T MULTILINE line_comment cur = None.
Proof.
  intros Hc Hne. unfold match_at.
  change line_comment
    with (Seq (Chr (One (ILit apostrophe))) (Seq (Rep false 0 Any) (Seq Eol Eps))).
  cbn [exec]. rewrite Hc.
  replace (cset_mem T MULTILINE (One (ILit apostrophe)) c) with false; [reflexivity|].
  symmetry. apply N.eqb_neq. exact Hne.
Qed.




End Bodies.

(** ** Attribute lines *)

Section AttributeLines.

Variable T : unicode_tables.








End AttributeLines.

(** ** Term extraction from CSV records *)

Section Terms.

Variable T : unicode_tables.

Lemma for_each_raises {A S} (body : S -> A -> outcome S) l e :
  foldl (fun acc a => bind acc (fun s => body s a)) (Raises e) l = Raises e.
Proof. induction l as [|a l IH]; [reflexivity | exact IH]. Qed.

Lemma for_each_cons {A S} (body : S -> A -> outcome S) a l init :
  for_each body (a :: l) init = bind (body init a) (for_each body l).
Proof.
  unfold for_each. simpl. destruct (body init a) as [s | e]; simpl;
    [reflexivity | apply for_each_raises].
Qed.

Lemma for_each_app {A S} (body : S -> A -> outcome S) l1 l2 init :
  for_each body (l1 ++ l2) init = bind (for_each body l1 init) (for_each body l2).
Proof.
  revert init. induction l1 as [|a l1 IH]; intros init; [reflexivity|].
  rewrite <- app_comm_cons, !for_each_cons.
  destruct (body init a) as [s | e]; simpl; [apply IH | reflexivity].
Qed.

Lemma later_rows_keep term_column key term after : forall terms result,
  for_each (record_original T term_column) after terms = Returns result ->
  terms !! key = Some term ->
  (forall row' term', row' ∈ after ->
     row_term T term_column row' = Returns term' ->
     normalize_term T term' <> key) ->
  result !! key = Some term.
Proof.
  induction after as [|row after IH]; intros terms result Hres Hkey Hlater.
  - injection Hres as <-. exact Hkey.
  - rewrite for_each_cons in Hres.
    destruct (record_original T term_column terms row) as [terms' | e] eqn:Hrow;
      [|discriminate].
    simpl in Hres. apply (IH terms' result Hres).
    + unfold record_original in Hrow.
      destruct (row_term T term_column row) as [term' | e] eqn:Ht; [|discriminate].
      simpl in Hrow.
      assert (Hne : normalize_term T term' <> key)
        by (eapply Hlater; [left | exact Ht]).
      destruct (nonempty term'); [|injection Hrow as <-; exact Hkey].
      destruct (nonempty (normalize_term T term')); injection Hrow as <-;
        [rewrite lookup_insert_ne by exact Hne|]; exact Hkey.
    + intros row' term' Hin. apply Hlater. right. exact Hin.
Qed.

(** C1 (as amended): the mapping keeps the last-seen original.  Whenever
    [extract_terms_with_original] returns, the canonical key of a row's term
    is associated with the original spelling of the last row whose term has
    that key: every later row with the same key overwrites the entry. *)
Theorem last_seen_original_wins (records : list (list str)) (terms : gmap str str)
    (term_column : str) (before after : list (gmap str (option str)))
    (row : gmap str (option str)) (term : str) :
  extract_terms_with_original T records = Returns terms ->
  find_term_column T (fieldnames_of records) = Some term_column ->
  dict_rows records = before ++ row :: after ->
  row_term T term_column row = Returns term ->
  normalize_term T term <> [] ->
  (forall row' term', row' ∈ after ->
     row_term T term_column row' = Returns term' ->
     normalize_term T term' <> normalize_term T term) ->
  terms !! normalize_term T term = Some term.
Proof.
  intros Hres Hcol Hrows Hterm Hkey Hlater.
  unfold extract_terms_with_original in Hres. rewrite Hcol, Hrows in Hres.
  rewrite for_each_app in Hres.
  destruct (for_each (record_original T term_column) before ∅) as [seen | e];
    [|discriminate].
  simpl in Hres. rewrite for_each_cons in Hres.
  assert (Hrow : record_original T term_column seen row
                 = Returns (<[ normalize_term T term := term ]> seen)).
  { unfold record_original. rewrite Hterm. simpl.
    apply nonempty_true in Hkey. rewrite Hkey.
    destruct term; [discriminate Hkey | reflexivity]. }
  rewrite Hrow in Hres. simpl in Hres.
  eapply later_rows_keep; [exact Hres | apply lookup_insert_eq | exact Hlater].
Qed.

(** A term column is missing exactly when extraction raises the error that
    lists the available columns. *)
Lemma value_error_iff_no_term_column records :
  (find_term_column T (fieldnames_of records) = None <->
   extract_terms_from_csv T records = Raises (ValueError (fieldnames_of records)))
  /\ (find_term_column T (fieldnames_of records) = None <->
      extract_terms_with_original T records
      = Raises (ValueError (fieldnames_of records))).
Proof.
  assert (Hterms : forall term_column rows init cols,
            for_each (record_term T term_column) rows init <> Raises (ValueError cols)).
  { intros term_column rows. induction rows as [|row rows IH]; intros init cols.
    - discriminate.
    - rewrite for_each_cons. unfold record_term at 1, row_term.
      destruct (default (Some []) (row !! term_column)) as [value|]; simpl;
        [|discriminate].
      destruct (nonempty (py_strip T value)); [destruct (nonempty _)|]; apply IH. }
  assert (Horig : forall term_column rows init cols,
            for_each (record_original T term_column) rows init
            <> Raises (ValueError cols)).
  { intros term_column rows. induction rows as [|row rows IH]; intros init cols.
    - discriminate.
    - rewrite for_each_cons. unfold record_original at 1, row_term.
      destruct (default (Some []) (row !! term_column)) as [value|]; simpl;
        [|discriminate].
      destruct (nonempty (py_strip T value)); [destruct (nonempty _)|]; apply IH. }
  unfold extract_terms_from_csv, extract_terms_with_original.
  destruct (find_term_column T (fieldnames_of records)) as [term_column|].
  - split; (split; [discriminate|]); intros Hraise; exfalso; revert Hraise;
      [apply Hterms | apply Horig].
  - split; split; reflexivity.
Qed.

End Terms.

(** ** Concrete runs *)

(** C8: a record too short to reach the term column makes both extraction
    functions raise [AttributeError], although the header has a term column:
    [csv.DictReader] stores [None] under the missing field, [row.get] returns
    it, and [None.strip()] raises. *)
Theorem short_row_raises_attribute_error (T : unicode_tables) :
  let records := [[lit "id"; lit "term"]; [lit "1"]] in
  find_term_column T (fieldnames_of records) = Some (lit "term")
  /\ extract_terms_from_csv T records = Raises AttributeError
  /\ extract_terms_with_original T records = Raises AttributeError.
Proof. repeat split; vm_compute; reflexivity. Qed.

(** C1, counterexample: two rows with the same canonical key; the mapping
    holds the spelling of the second row, the first one is overwritten. *)
Lemma first_seen_original_overwritten :
  extract_terms_with_original cpython_fragment
    [[lit "term"]; [lit "API Gateway"]; [lit "api_gateway"]]
  = Returns {[ lit "apigateway" := lit "api_gateway" ]}
  /\ normalize_term cpython_fragment (lit "API Gateway") = lit "apigateway"
  /\ normalize_term cpython_fragment (lit "api_gateway") = lit "apigateway".
Proof. repeat split; vm_compute; reflexivity. Qed.

Lemma last_seen_original_wins_witness :
  ({[ lit "apigateway" := lit "api_gateway" ]} : gmap str str)
    !! normalize_term cpython_fragment (lit "api_gateway")
  = Some (lit "api_gateway").
Proof.
  apply (last_seen_original_wins cpython_fragment
           [[lit "term"]; [lit "API Gateway"]; [lit "api_gateway"]]
           {[ lit "apigateway" := lit "api_gateway" ]}
           (lit "term")
           [row_dict [lit "term"] [lit "API Gateway"]] []
           (row_dict [lit "term"] [lit "api_gateway"])
           (lit "api_gateway")).
  - vm_compute; reflexivity.
  - vm_compute; reflexivity.
  - vm_compute; reflexivity.
  - vm_compute; reflexivity.
  - vm_compute; discriminate.
  - intros row' term' Hin. inversion Hin.
Defined.

Lemma calculate_metrics_identity_witness :
  ((precision (calculate_metrics ({[ lit "order" ]} : gset str) {[ lit "order" ]}) == 1)%Q
   /\ (recall (calculate_metrics ({[ lit "order" ]} : gset str) {[ lit "order" ]}) == 1)%Q
   /\ (f1_score (calculate_metrics ({[ lit "order" ]} : gset str) {[ lit "order" ]}) == 1)%Q
   /\ false_positives (calculate_metrics ({[ lit "order" ]} : gset str) {[ lit "order" ]}) = 0%nat
   /\ false_negatives (calculate_metrics ({[ lit "order" ]} : gset str) {[ lit "order" ]}) = 0%nat)
  /\ calculate_metrics (∅ : gset str) ∅ =
     {| precision := 0; recall := 0; f1_score := 0;
        true_positives := 0; false_positives := 0; false_negatives := 0 |}.
Proof.
  apply (calculate_metrics_identity ({[ lit "order" ]} : gset str)).
  intros Hempty. apply (f_equal size) in Hempty. vm_compute in Hempty. discriminate.
Defined.

(** C6, counterexample: U+0130 (capital I with dot above) lower-cases to
    [i] followed by U+0307 (combining dot above), which is not a word
    character and is deleted by the second pass. *)
Lemma normalize_not_idempotent_dotted_I :
  normalize_identifier cpython_fragment [304] = [105; 775]
  /\ normalize_identifier cpython_fragment (normalize_identifier cpython_fragment [304])
     = [105]
  /\ normalize_term cpython_fragment [304] = [105; 775]
  /\ normalize_term cpython_fragment (normalize_term cpython_fragment [304]) = [105].
Proof. repeat split; vm_compute; reflexivity. Qed.

Lemma normalize_idempotent_on_clean_input_witness :
  normalize_identifier cpython_fragment
    (normalize_identifier cpython_fragment (lit " Order_Item <T> " ++ [201]))
  = normalize_identifier cpython_fragment (lit " Order_Item <T> " ++ [201])
  /\ normalize_term cpython_fragment
       (normalize_term cpython_fragment (lit " Order_Item <T> " ++ [201]))
     = normalize_term cpython_fragment (lit " Order_Item <T> " ++ [201]).
Proof.
  apply (normalize_idempotent_on_clean_input cpython_fragment
           (lit " Order_Item <T> " ++ [201])).
  apply Forall_app. split.
  - apply ascii_input_is_clean. repeat constructor.
  - constructor; [|constructor].
    intros _ before after. vm_compute. repeat constructor.
Defined.



(** C10, counterexample: in [class _ as Y { a }] the class name normalises
    to the empty string, so the classes set does not hold it, while the
    attribute is stored under the key of the alias. *)
Lemma alias_declaration_of_keyless_class :
  parse_plantuml_file cpython_fragment (lit "class _ as Y { a }")
  = {| classes := ∅; relationships := ∅;
       attributes := {[ (lit "y", lit "a") ]} |}
  /\ normalize_identifier cpython_fragment (lit "_") = []
  /\ normalize_identifier cpython_fragment (lit "Y") = lit "y".
Proof. repeat split; vm_compute; reflexivity. Qed.

Lemma alias_asymmetry_witness :
  lit "order" ∈ classes (parse_plantuml_file cpython_fragment
                            (lit "class Order as O { id }")).
Proof.
  pose (text := lit "class Order as O { id }").
  pose (m := default {| m_start := 0; m_end := 0; m_groups := [] |}
               (head (finditer cpython_fragment IGNORECASE class_pattern
                        (remove_comments cpython_fragment text)))).
  pose (m' := default {| m_start := 0; m_end := 0; m_groups := [] |}
                (head (finditer cpython_fragment IGNORECASE_DOTALL class_def_pattern
                         (remove_comments cpython_fragment text)))).
  assert (Hm : m ∈ finditer cpython_fragment IGNORECASE class_pattern
                     (remove_comments cpython_fragment text))
    by (vm_compute; apply list_elem_of_here).
  assert (Hm' : m' ∈ finditer cpython_fragment IGNORECASE_DOTALL class_def_pattern
                       (remove_comments cpython_fragment text))
    by (vm_compute; apply list_elem_of_here).
  assert (H1 : group m' 1 = group m 1) by (vm_compute; reflexivity).
  assert (H2 : group m' 2 = group m 2) by (vm_compute; reflexivity).
  assert (H3 : group m 3 = Some (lit "O")) by (vm_compute; reflexivity).
  assert (H3' : group m' 3 = Some (lit "O")) by (vm_compute; reflexivity).
  assert (Hkey : normalize_identifier cpython_fragment
                   (simple_name_of (first_truthy (group m 1) (group m 2)))
                 = lit "order") by (vm_compute; reflexivity).
  assert (Hne : normalize_identifier cpython_fragment
                  (simple_name_of (first_truthy (group m 1) (group m 2))) <> [])
    by (rewrite Hkey; discriminate).
  rewrite <- Hkey.
  exact (proj1 (alias_asymmetry cpython_fragment text m m' (lit "O")
                  Hm Hm' H1 H2 H3 H3') Hne).
Defined.

(** * Further properties *)

(** ** The set comparator, in general *)

Section MoreComparator.

Context {A : Type} `{Countable A}.

Local Open Scope nat_scope.

Lemma metrics_split (R E : gset A) :
  size (R ∩ E) + size (R ∖ E) = size R /\ size (R ∩ E) + size (E ∖ R) = size E.
Proof.
  split.
  - rewrite <- size_union by set_solver. f_equal.
    apply set_eq. intros x. rewrite elem_of_union, elem_of_intersection, elem_of_difference.
    destruct (decide (x ∈ E)); tauto.
  - rewrite <- size_union by set_solver. f_equal.
    apply set_eq. intros x. rewrite elem_of_union, elem_of_intersection, elem_of_difference.
    destruct (decide (x ∈ R)); tauto.
Qed.

(** X1: The counts split the two sets: true positives and false negatives make
    up the reference, true positives and false positives the candidate. *)
Theorem counts_partition_the_sets (R E : gset A) :
  true_positives (calculate_metrics R E) + false_negatives (calculate_metrics R E) = size R
  /\ true_positives (calculate_metrics R E) + false_positives (calculate_metrics R E) = size E.
Proof. apply metrics_split. Qed.

Lemma true_div_bounds a b : (0 < a + b)%nat -> (0 <= true_div a (a + b) <= 1)%Q.
Proof.
  intros Hab. unfold true_div.
  assert (Hpos : (0 < inject_Z (Z.of_nat (a + b)))%Q)
    by (unfold Qlt, inject_Z; simpl; lia).
  split.
  - apply Qle_shift_div_l; [exact Hpos|]. unfold Qle, inject_Z; simpl; lia.
  - apply Qle_shift_div_r; [exact Hpos|]. unfold Qle, inject_Z; simpl; lia.
Qed.

Lemma true_div_pos a b : (0 < a)%nat -> (0 < true_div a (a + b))%Q.
Proof.
  intros Ha. unfold true_div. apply Qlt_shift_div_l.
  - unfold Qlt, inject_Z; simpl; lia.
  - unfold Qlt, inject_Z; simpl; lia.
Qed.

Lemma true_div_zero b : (true_div 0 b == 0)%Q.
Proof. unfold true_div, Qdiv. simpl. apply Qmult_0_l. Qed.

Lemma true_div_one a b : (0 < a + b)%nat -> (true_div a (a + b) == 1)%Q -> b = 0%nat.
Proof.
  intros Hab Heq. unfold true_div in Heq.
  assert (Hne : ~ (inject_Z (Z.of_nat (a + b)) == 0)%Q)
    by (unfold Qeq, inject_Z; simpl; lia).
  assert (Hx : (inject_Z (Z.of_nat a) == inject_Z (Z.of_nat (a + b)))%Q).
  { transitivity (inject_Z (Z.of_nat (a + b))
                  * (inject_Z (Z.of_nat a) / inject_Z (Z.of_nat (a + b))))%Q.
    - symmetry. apply Qmult_div_r. exact Hne.
    - rewrite Heq. ring. }
  unfold Qeq, inject_Z in Hx; simpl in Hx. lia.
Qed.

Lemma harmonic_bounds (p r : Q) :
  (0 <= p <= 1)%Q -> (0 <= r <= 1)%Q -> (0 < p + r)%Q ->
  (0 <= 2 * p * r / (p + r) <= 1)%Q.
Proof.
  intros [Hp0 Hp1] [Hr0 Hr1] Hs. split.
  - apply Qle_shift_div_l; [exact Hs|]. nra.
  - apply Qle_shift_div_r; [exact Hs|]. nra.
Qed.

Lemma metrics_bounds (R E : gset A) :
  (0 <= precision (calculate_metrics R E) <= 1)%Q
  /\ (0 <= recall (calculate_metrics R E) <= 1)%Q
  /\ (0 <= f1_score (calculate_metrics R E) <= 1)%Q.
Proof.
  unfold calculate_metrics; cbn [precision recall f1_score].
  set (tp := size (R ∩ E)). set (fp := size (E ∖ R)). set (fn := size (R ∖ E)).
  assert (Hp : (0 <= (if (0 <? tp + fp)%nat then true_div tp (tp + fp) else 0) <= 1)%Q).
  { destruct (0 <? tp + fp)%nat eqn:E1; [|lra].
    apply true_div_bounds. apply Nat.ltb_lt. exact E1. }
  assert (Hr : (0 <= (if (0 <? tp + fn)%nat then true_div tp (tp + fn) else 0) <= 1)%Q).
  { destruct (0 <? tp + fn)%nat eqn:E1; [|lra].
    apply true_div_bounds. apply Nat.ltb_lt. exact E1. }
  repeat split; try apply Hp; try apply Hr.
  - destruct (Qle_bool _ 0) eqn:Hle; cbn [negb]; [lra|].
    apply harmonic_bounds; auto.
    apply Qnot_le_lt. intros Hc. apply Qle_bool_iff in Hc. congruence.
  - destruct (Qle_bool _ 0) eqn:Hle; cbn [negb]; [lra|].
    apply harmonic_bounds; auto.
    apply Qnot_le_lt. intros Hc. apply Qle_bool_iff in Hc. congruence.
Qed.

(** X2: Precision, recall and F1 lie between 0 and 1 for every pair of sets. *)
Theorem metrics_within_unit_interval (R E : gset A) :
  (0 <= precision (calculate_metrics R E) <= 1)%Q
  /\ (0 <= recall (calculate_metrics R E) <= 1)%Q
  /\ (0 <= f1_score (calculate_metrics R E) <= 1)%Q.
Proof. exact (metrics_bounds R E). Qed.

(** [tp / (tp + other) if tp + other > 0 else 0.0] *)
Lemma ratio_zero tp other :
  ((if (0 <? tp + other)%nat then true_div tp (tp + other) else 0) == 0)%Q <-> tp = 0%nat.
Proof.
  destruct (0 <? tp + other)%nat eqn:E1.
  - apply Nat.ltb_lt in E1. split.
    + intros Hz. destruct tp as [|tp]; [reflexivity|].
      pose proof (true_div_pos (S tp) other ltac:(lia)). lra.
    + intros ->. apply true_div_zero.
  - apply Nat.ltb_ge in E1. split; [lia | reflexivity].
Qed.

Lemma ratio_one tp other :
  ((if (0 <? tp + other)%nat then true_div tp (tp + other) else 0) == 1)%Q
  <-> (0 < tp)%nat /\ other = 0%nat.
Proof.
  destruct (0 <? tp + other)%nat eqn:E1.
  - apply Nat.ltb_lt in E1. split.
    + intros Hone. apply true_div_one in Hone; [|exact E1]. lia.
    + intros [Htp ->]. rewrite Nat.add_0_r. unfold true_div. apply Qmult_inv_r.
      unfold Qeq, inject_Z; simpl; lia.
  - apply Nat.ltb_ge in E1. split; [intros Hc; lra | lia].
Qed.

Lemma harmonic_zero (p r : Q) :
  (0 <= p)%Q -> (0 <= r)%Q ->
  ((if negb (Qle_bool (p + r) 0) then 2 * p * r / (p + r) else 0) == 0)%Q
  <-> (p == 0 \/ r == 0)%Q.
Proof.
  intros Hp Hr. destruct (Qle_bool (p + r) 0) eqn:Hle; cbn [negb].
  - apply Qle_bool_iff in Hle. split; [intros _; left; lra | reflexivity].
  - assert (Hs : (0 < p + r)%Q).
    { apply Qnot_le_lt. intros Hc. apply Qle_bool_iff in Hc. congruence. }
    split.
    + intros Hz.
      assert (Hpr : (2 * p * r == 0)%Q).
      { transitivity ((p + r) * (2 * p * r / (p + r)))%Q.
        - symmetry. apply Qmult_div_r. lra.
        - rewrite Hz. ring. }
      destruct (Qeq_dec p 0) as [|Hp0]; [left; assumption|]. right.
      assert (Hpp : (0 < p)%Q) by lra.
      destruct (Qeq_dec r 0) as [|Hr0]; [assumption|].
      assert (Hrp : (0 < r)%Q) by lra. nra.
    + intros [Hz | Hz]; rewrite Hz; unfold Qdiv; ring.
Qed.

Lemma harmonic_one (p r : Q) :
  (0 <= p <= 1)%Q -> (0 <= r <= 1)%Q ->
  ((if negb (Qle_bool (p + r) 0) then 2 * p * r / (p + r) else 0) == 1)%Q
  <-> (p == 1 /\ r == 1)%Q.
Proof.
  intros Hp Hr. destruct (Qle_bool (p + r) 0) eqn:Hle; cbn [negb].
  - apply Qle_bool_iff in Hle. split; [intros Hc; lra | intros [? ?]; lra].
  - assert (Hs : (0 < p + r)%Q).
    { apply Qnot_le_lt. intros Hc. apply Qle_bool_iff in Hc. congruence. }
    split.
    + intros Hone.
      assert (Hpr : (2 * p * r == p + r)%Q).
      { transitivity ((p + r) * (2 * p * r / (p + r)))%Q.
        - symmetry. apply Qmult_div_r. lra.
        - rewrite Hone. ring. }
      split; nra.
    + intros [Hp1 Hr1]. rewrite Hp1, Hr1. reflexivity.
Qed.

Lemma size_zero_iff (X : gset A) : size X = 0%nat <-> X = ∅.
Proof.
  split; [intros Hs; apply leibniz_equiv, size_empty_inv, Hs | intros ->; apply size_empty].
Qed.

Lemma difference_empty_iff (X Y : gset A) : X ∖ Y = ∅ <-> X ⊆ Y.
Proof.
  split; [apply empty_difference_subseteq_L | apply subseteq_empty_difference_L].
Qed.

(** X3: The three scores are zero exactly when the two sets share no element. *)
Theorem scores_vanish_iff_disjoint (R E : gset A) :
  ((precision (calculate_metrics R E) == 0)%Q <-> R ∩ E = ∅)
  /\ ((recall (calculate_metrics R E) == 0)%Q <-> R ∩ E = ∅)
  /\ ((f1_score (calculate_metrics R E) == 0)%Q <-> R ∩ E = ∅).
Proof.
  pose proof (metrics_bounds R E) as (Hp & Hr & _).
  unfold calculate_metrics in *; cbn [precision recall f1_score] in *.
  rewrite <- size_zero_iff.
  split; [apply ratio_zero | split; [apply ratio_zero|]].
  rewrite harmonic_zero by (apply Hp || apply Hr).
  rewrite !ratio_zero. tauto.
Qed.

(** X4: Perfect precision means a non-empty candidate inside the reference,
    perfect recall a non-empty reference inside the candidate, and a perfect
    F1 that the candidate is the reference, not empty. *)
Theorem perfect_scores (R E : gset A) :
  ((precision (calculate_metrics R E) == 1)%Q <-> E <> ∅ /\ E ⊆ R)
  /\ ((recall (calculate_metrics R E) == 1)%Q <-> R <> ∅ /\ R ⊆ E)
  /\ ((f1_score (calculate_metrics R E) == 1)%Q <-> R = E /\ R <> ∅).
Proof.
  pose proof (metrics_bounds R E) as (Hp & Hr & _).
  pose proof (metrics_split R E) as [HR HE].
  unfold calculate_metrics in *; cbn [precision recall f1_score] in *.
  assert (Hprec : (0 < size (R ∩ E))%nat /\ size (E ∖ R) = 0%nat <-> E <> ∅ /\ E ⊆ R).
  { rewrite size_zero_iff, difference_empty_iff, <- (size_zero_iff E). split.
    - intros [Htp Hsub]. split; [|exact Hsub].
      apply difference_empty_iff, size_zero_iff in Hsub. lia.
    - intros [Hne Hsub]. split; [|exact Hsub].
      apply difference_empty_iff, size_zero_iff in Hsub. lia. }
  assert (Hrec : (0 < size (R ∩ E))%nat /\ size (R ∖ E) = 0%nat <-> R <> ∅ /\ R ⊆ E).
  { rewrite size_zero_iff, difference_empty_iff, <- (size_zero_iff R). split.
    - intros [Htp Hsub]. split; [|exact Hsub].
      apply difference_empty_iff, size_zero_iff in Hsub. lia.
    - intros [Hne Hsub]. split; [|exact Hsub].
      apply difference_empty_iff, size_zero_iff in Hsub. lia. }
  split; [rewrite ratio_one; exact Hprec | split; [rewrite ratio_one; exact Hrec|]].
  rewrite harmonic_one by (apply Hp || apply Hr).
  rewrite !ratio_one, Hprec, Hrec. split.
  - intros [[HE0 HER] [HR0 HRE]]. split; [|exact HR0].
    apply set_eq. intros x. split; [apply HRE | apply HER].
  - intros [-> Hne]. repeat split; auto.
Qed.

End MoreComparator.

(** ** The extracted model, in general *)

Section MoreExtraction.

Variable T : unicode_tables.

Lemma normalize_identifier_clean x :
  Forall (fun c => is_space T c = false /\ c <> underscore) (normalize_identifier T x).
Proof.
  rewrite normalize_identifier_pipeline. apply Forall_forall. intros c Hin.
  unfold remove_char in Hin. apply list_elem_of_filter in Hin as [Hu Hin].
  apply list_elem_of_In, filter_In in Hin as [_ Hs].
  apply negb_true_iff in Hs. auto.
Qed.

Lemma line_attribute_normalized line attr :
  line_attribute T line = Some attr -> exists name, attr = normalize_identifier T name.
Proof.
  unfold line_attribute. intros Hl.
  repeat match type of Hl with
         | (if ?b then _ else _) = _ => destruct b; [discriminate|]
         | (let x := _ in _) = _ => cbv zeta in Hl
         | match ?o with Some _ => _ | None => _ end = _ => destruct o; [|discriminate]
         end.
  repeat match type of Hl with
         | (if ?b then _ else _) = _ => destruct b; try discriminate
         end.
  injection Hl as <-. eauto.
Qed.

Lemma model_keys_clean (text : str) :
  let clean := Forall (fun c => is_space T c = false /\ c <> underscore) in
  (forall c, c ∈ classes (parse_plantuml_file T text) -> clean c)
  /\ (forall source kind target,
        (source, kind, target) ∈ relationships (parse_plantuml_file T text) ->
        clean source /\ kind ∈ relationship_kinds /\ clean target)
  /\ (forall owner attr,
        (owner, attr) ∈ attributes (parse_plantuml_file T text) ->
        clean owner /\ clean attr).
Proof.
  unfold parse_plantuml_file; cbn [classes relationships attributes]. cbv zeta.
  split; [|split].
  - intros c Hc. apply elem_of_extract_classes in Hc as (m & _ & <- & _).
    apply normalize_identifier_clean.
  - intros source kind target Hr.
    apply elem_of_extract_relationships in Hr
      as (arrow & rel_type & is_reverse & m & Hlex & _ & _ & _ & Heq).
    assert (Hkind : normalize_identifier T rel_type ∈ relationship_kinds).
    { destruct (lexicon_kind_normal T _ _ _ Hlex) as [-> _].
      unfold arrow_lexicon in Hlex. rewrite !elem_of_cons, elem_of_nil in Hlex.
      unfold relationship_kinds. rewrite !elem_of_cons.
      repeat destruct Hlex as [[= _ -> _] | Hlex]; tauto. }
    unfold stored_triple in Heq.
    destruct is_reverse; injection Heq as -> -> ->;
      repeat split; auto; apply normalize_identifier_clean.
  - intros owner attr Ha.
    apply elem_of_extract_attributes in Ha
      as (m & line & a & _ & _ & Hattr & _ & _ & [= -> ->]).
    split; [apply normalize_identifier_clean|].
    apply line_attribute_normalized in Hattr as (name & ->).
    apply normalize_identifier_clean.
Qed.

(** X5: Every key of an extracted model is free of whitespace and underscores,
    and every relationship type is one of the six. *)
Theorem model_keys_are_canonical (text : str) :
  let clean := Forall (fun c => is_space T c = false /\ c <> underscore) in
  (forall c, c ∈ classes (parse_plantuml_file T text) -> clean c)
  /\ (forall source kind target,
        (source, kind, target) ∈ relationships (parse_plantuml_file T text) ->
        clean source /\ kind ∈ relationship_kinds /\ clean target)
  /\ (forall owner attr,
        (owner, attr) ∈ attributes (parse_plantuml_file T text) ->
        clean owner /\ clean attr).
Proof. exact (model_keys_clean text). Qed.

Lemma py_split_no_sep sep s : contains sep s = false -> py_split sep s = [s].
Proof.
  induction s as [|c s IH]; [reflexivity|].
  unfold contains. cbn [existsb]. intros Hc.
  apply orb_false_iff in Hc as [Hc Hs].
  cbn [py_split]. rewrite N.eqb_sym, Hc, (IH Hs). reflexivity.
Qed.

Lemma py_split_qualified sep p n :
  contains sep n = false ->
  exists w init, py_split sep (p ++ sep :: n) = (w :: init) ++ [n].
Proof.
  intros Hn. induction p as [|c p (w & init & IH)]; cbn [app py_split].
  - rewrite N.eqb_refl, (py_split_no_sep sep n Hn). exists [], []. reflexivity.
  - rewrite IH. destruct (c =? sep).
    + exists [], (w :: init). reflexivity.
    + exists (c :: w), init. reflexivity.
Qed.

Lemma py_split_last sep p n :
  contains sep n = false -> last (py_split sep (p ++ sep :: n)) = Some n.
Proof.
  intros Hn. destruct (py_split_qualified sep p n Hn) as (w & init & ->).
  apply last_snoc.
Qed.

Lemma contains_app c a b : contains c (a ++ b) = contains c a || contains c b.
Proof. unfold contains. apply existsb_app. Qed.

(** X6: Qualified names collapse to their last segment: whatever the prefix, a
    name [prefix.name] has the simple name [name] and so the key of [name];
    a name that ends in a dot has the empty simple name and no key. *)
Theorem qualified_name_collapses (prefix name : str) :
  contains (ch ".") name = false ->
  simple_name_of (prefix ++ ch "." :: name) = name
  /\ normalize_identifier T (simple_name_of (prefix ++ ch "." :: name))
     = normalize_identifier T (simple_name_of name)
  /\ normalize_identifier T (simple_name_of (prefix ++ [ch "."])) = [].
Proof.
  intros Hn.
  assert (Hsimple : forall n, contains (ch ".") n = false ->
                              simple_name_of (prefix ++ ch "." :: n) = n).
  { intros n Hdot. unfold simple_name_of.
    rewrite contains_app. cbn [contains existsb]. rewrite N.eqb_refl, orb_true_r.
    cbn [orb]. rewrite py_split_last by exact Hdot. reflexivity. }
  split; [apply Hsimple, Hn | split].
  - rewrite (Hsimple name Hn). unfold simple_name_of. rewrite Hn. reflexivity.
  - rewrite (Hsimple [] eq_refl). reflexivity.
Qed.

End MoreExtraction.

(** ** The normaliser on ASCII input *)

Section MoreNormaliser.

Variable T : unicode_tables.

Lemma lower_from_ascii s : forall before,
  Forall (fun c => is_ascii c = true) s -> lower_from T before s = map ascii_lower s.
Proof.
  induction s as [|c s IH]; intros before Hs; [reflexivity|].
  inversion Hs as [|? ? Hc Hs']; subst. simpl.
  unfold lower_char. rewrite Hc, IH by assumption. reflexivity.
Qed.

Lemma filter_lstrip (p : N -> bool) l :
  Forall (fun c => is_space T c = true -> p c = false) l ->
  List.filter p (lstrip T l) = List.filter p l.
Proof.
  induction 1 as [|c l Hc _ IH]; [reflexivity|].
  simpl. destruct (is_space T c) eqn:Es; [|reflexivity].
  rewrite (Hc eq_refl). exact IH.
Qed.

Lemma filter_py_strip (p : N -> bool) l :
  Forall (fun c => is_space T c = true -> p c = false) l ->
  List.filter p (py_strip T l) = List.filter p l.
Proof.
  intros Hl. unfold py_strip.
  rewrite filter_rev, filter_lstrip, filter_rev, rev_involutive, filter_lstrip;
    auto using Forall_rev, lstrip_Forall.
Qed.

(** What is left of one ASCII character after the four later steps. *)
Lemma ascii_char_survives c :
  is_ascii c = true ->
  (is_word T c || is_space T c) && negb (is_space T (ascii_lower c))
  && negb (ascii_lower c =? underscore) = ascii_isalnum c.
Proof.
  intros Hc.
  assert (Hl : is_ascii (ascii_lower c) = true)
    by (revert c Hc; apply ascii_forall; vm_compute; reflexivity).
  unfold is_word, is_space. rewrite Hc, Hl.
  apply eqb_prop. clear Hl. revert c Hc. apply ascii_forall. vm_compute. reflexivity.
Qed.

Lemma ascii_pipeline l :
  Forall (fun c => is_ascii c = true) l ->
  remove_char underscore
    (List.filter (fun c => negb (is_space T c))
       (map ascii_lower (List.filter (fun c => is_word T c || is_space T c) l)))
  = map ascii_lower (List.filter ascii_isalnum l).
Proof.
  induction 1 as [|c l Hc _ IH]; [reflexivity|].
  pose proof (ascii_char_survives c Hc) as Hkeep.
  cbn [List.filter]. destruct (is_word T c || is_space T c) eqn:Ew.
  - cbn [map List.filter]. destruct (is_space T (ascii_lower c)) eqn:Es; cbn [negb andb] in *.
    + rewrite <- Hkeep. exact IH.
    + unfold remove_char in *.
      destruct (ascii_lower c =? underscore) eqn:Eu; cbn [negb] in Hkeep; rewrite <- Hkeep.
      * apply N.eqb_eq in Eu.
        rewrite (filter_cons_False (fun y => y <> underscore));
          [exact IH | intros Hne; exact (Hne Eu)].
      * apply N.eqb_neq in Eu.
        rewrite (filter_cons_True (fun y => y <> underscore) _ _ Eu).
        cbn [map]. f_equal. exact IH.
  - cbn [andb] in Hkeep. rewrite <- Hkeep. exact IH.
Qed.

(** X7: On ASCII input the canonical key is the letters and digits of the input,
    in order and lower-cased: case, whitespace, underscores and punctuation
    make no difference. *)
Theorem normalize_ascii_closed_form (x : str) :
  Forall (fun c => is_ascii c = true) x ->
  normalize_identifier T x = map ascii_lower (List.filter ascii_isalnum x)
  /\ normalize_term T x = map ascii_lower (List.filter ascii_isalnum x).
Proof.
  intros Hx. change (normalize_term T) with (normalize_identifier T).
  assert (Hkey : normalize_identifier T x = map ascii_lower (List.filter ascii_isalnum x));
    [|split; exact Hkey].
  rewrite normalize_identifier_pipeline. unfold py_lower.
  pose proof (py_strip_Forall T _ x Hx) as Hs.
  rewrite lower_from_ascii
    by (apply incl_Forall with (l1 := py_strip T x); [apply incl_filter | exact Hs]).
  rewrite (ascii_pipeline _ Hs). f_equal.
  apply filter_py_strip.
  eapply Forall_impl; [exact Hx|]. intros c Hc. unfold is_space. rewrite Hc.
  revert c Hc. intros c Hc Hsp.
  assert (Hall : forall c, is_ascii c = true ->
            implb (ascii_isspace c) (negb (ascii_isalnum c)) = true)
    by (apply ascii_forall; vm_compute; reflexivity).
  specialize (Hall c Hc). rewrite Hsp in Hall. apply negb_true_iff. exact Hall.
Qed.

End MoreNormaliser.

(** ** The two term extractors *)

Section MoreTerms.

Variable T : unicode_tables.

Lemma record_term_dom (term_column : str) (terms : gmap str str)
    (row : gmap str (option str)) :
  record_term T term_column (dom terms) row
  = match record_original T term_column terms row with
    | Returns terms' => Returns (dom terms')
    | Raises e => Raises e
    end.
Proof.
  unfold record_term, record_original.
  destruct (row_term T term_column row) as [term | e]; simpl; [|reflexivity].
  destruct (nonempty term); [|reflexivity].
  destruct (nonempty (normalize_term T term)); [|reflexivity].
  rewrite dom_insert_L. reflexivity.
Qed.

Lemma for_each_dom (term_column : str) (rows : list (gmap str (option str))) :
  forall terms : gmap str str,
  for_each (record_term T term_column) rows (dom terms)
  = match for_each (record_original T term_column) rows terms with
    | Returns terms' => Returns (dom terms')
    | Raises e => Raises e
    end.
Proof.
  induction rows as [|row rows IH]; intros terms; [reflexivity|].
  rewrite !for_each_cons, record_term_dom.
  destruct (record_original T term_column terms row) as [terms' | e]; simpl;
    [apply IH | reflexivity].
Qed.

Lemma from_csv_is_dom (records : list (list str)) :
  extract_terms_from_csv T records
  = match extract_terms_with_original T records with
    | Returns terms => Returns (dom terms)
    | Raises e => Raises e
    end.
Proof.
  unfold extract_terms_from_csv, extract_terms_with_original.
  destruct (find_term_column T (fieldnames_of records)) as [term_column|];
    [|reflexivity].
  rewrite <- for_each_dom, dom_empty_L. reflexivity.
Qed.

(** X9: The two extractors agree on every file: [extract_terms_from_csv] returns
    exactly the keys of the mapping [extract_terms_with_original] returns,
    and raises the same error whenever that one raises. *)
Theorem extractors_agree (records : list (list str)) :
  extract_terms_from_csv T records
  = match extract_terms_with_original T records with
    | Returns terms => Returns (dom terms)
    | Raises e => Raises e
    end.
Proof. exact (from_csv_is_dom records). Qed.

(** What the loop of [extract_terms_with_original] keeps true of its dict. *)
Lemma originals_invariant (P : str -> str -> Prop) (term_column : str)
    (rows : list (gmap str (option str))) :
  (forall row term, row ∈ rows -> row_term T term_column row = Returns term ->
     term <> [] -> normalize_term T term <> [] -> P (normalize_term T term) term) ->
  forall terms terms',
    for_each (record_original T term_column) rows terms = Returns terms' ->
    map_Forall P terms -> map_Forall P terms'.
Proof.
  induction rows as [|row rows IH]; intros Hstep terms terms' Hres Hterms.
  - injection Hres as <-. exact Hterms.
  - rewrite for_each_cons in Hres.
    destruct (record_original T term_column terms row) as [terms1 | e] eqn:Hrow;
      [|discriminate].
    simpl in Hres. apply (IH (fun row' term Hin => Hstep row' term (list_elem_of_further _ _ _ Hin))
                             terms1 terms' Hres).
    unfold record_original in Hrow.
    destruct (row_term T term_column row) as [term | e] eqn:Hterm; [|discriminate].
    simpl in Hrow.
    destruct (nonempty term) eqn:Ht; [|injection Hrow as <-; exact Hterms].
    destruct (nonempty (normalize_term T term)) eqn:Hk; injection Hrow as <-;
      [|exact Hterms].
    apply map_Forall_insert_2; [|exact Hterms].
    apply (Hstep row term); [left | exact Hterm | |]; apply nonempty_true; assumption.
Qed.

Lemma originals_spell_keys (records : list (list str)) (terms : gmap str str) :
  extract_terms_with_original T records = Returns terms ->
  map_Forall (fun key original =>
    normalize_term T original = key /\ key <> [] /\ original <> []
    /\ exists term_column row,
         find_term_column T (fieldnames_of records) = Some term_column
         /\ row ∈ dict_rows records
         /\ row_term T term_column row = Returns original) terms.
Proof.
  unfold extract_terms_with_original.
  destruct (find_term_column T (fieldnames_of records)) as [term_column|] eqn:Hcol;
    [|discriminate].
  intros Hres.
  refine (originals_invariant _ term_column (dict_rows records) _ ∅ terms Hres _).
  - intros row term Hin Hterm Hne Hkey. eauto 10.
  - apply map_Forall_empty.
Qed.

(** X10: Every entry of the mapping [extract_terms_with_original] returns pairs a
    non-empty canonical key with a non-empty original spelling that
    normalises to that key, and the spelling is the stripped term field of
    some row of the file. *)
Theorem original_spells_its_key (records : list (list str)) (terms : gmap str str)
    (key original : str) :
  extract_terms_with_original T records = Returns terms ->
  terms !! key = Some original ->
  normalize_term T original = key /\ key <> [] /\ original <> []
  /\ exists term_column row,
       find_term_column T (fieldnames_of records) = Some term_column
       /\ row ∈ dict_rows records
       /\ row_term T term_column row = Returns original.
Proof.
  intros Hres Hkey. exact (originals_spell_keys records terms Hres key original Hkey).
Qed.

Lemma zip_dict_total (l : list (str * str)) (key : str) : forall d : gmap str (option str),
  d !! key <> Some None ->
  foldl (fun d '(key, value) => <[key := Some value]> d) d l !! key <> Some None.
Proof.
  induction l as [|[k v] l IH]; intros d Hd; simpl; [exact Hd|].
  apply IH. destruct (decide (k = key)) as [-> | Hne];
    [rewrite lookup_insert_eq; discriminate
    | rewrite lookup_insert_ne by exact Hne; exact Hd].
Qed.

Lemma row_term_full (fieldnames record : list str) (term_column : str) :
  (length fieldnames <= length record)%nat ->
  exists term, row_term T term_column (row_dict fieldnames record) = Returns term.
Proof.
  intros Hlen. unfold row_dict. rewrite drop_ge by exact Hlen. simpl.
  pose proof (zip_dict_total (zip fieldnames record) term_column ∅) as Htot.
  unfold row_term.
  destruct (foldl _ ∅ (zip fieldnames record) !! term_column) as [[value|]|];
    simpl; eauto.
  exfalso. apply Htot; [rewrite lookup_empty; discriminate | reflexivity].
Qed.

Lemma for_each_returns (term_column : str) (rows : list (gmap str (option str))) :
  Forall (fun row => exists term, row_term T term_column row = Returns term) rows ->
  forall terms, exists terms',
    for_each (record_original T term_column) rows terms = Returns terms'.
Proof.
  induction 1 as [|row rows [term Hrow] _ IH]; intros terms; [eexists; reflexivity|].
  rewrite for_each_cons. unfold record_original at 1. rewrite Hrow. simpl.
  destruct (nonempty term); [destruct (nonempty _)|]; simpl; apply IH.
Qed.

(** X12: With a term column in the header and no record shorter than the header,
    neither extractor raises: blank lines are skipped, and every other row
    has a string under the term column. *)
Theorem full_rows_never_raise (records : list (list str)) (term_column : str) :
  find_term_column T (fieldnames_of records) = Some term_column ->
  Forall (fun record =>
            record = []
            \/ (length (default [] (fieldnames_of records)) <= length record)%nat)
         (tail records) ->
  exists terms,
    extract_terms_with_original T records = Returns terms
    /\ extract_terms_from_csv T records = Returns (dom terms).
Proof.
  intros Hcol Hrows.
  assert (Hret : exists terms, extract_terms_with_original T records = Returns terms).
  { unfold extract_terms_with_original. rewrite Hcol.
    apply for_each_returns. unfold dict_rows.
    apply Forall_fmap, Forall_forall. intros record Hin.
    apply list_elem_of_filter in Hin as [Hne Hin].
    rewrite Forall_forall in Hrows. destruct (Hrows record Hin) as [-> | Hlen];
      [contradiction|].
    apply row_term_full, Hlen. }
  destruct Hret as [terms Hret]. exists terms. split; [exact Hret|].
  rewrite from_csv_is_dom, Hret. reflexivity.
Qed.

End MoreTerms.

Section MoreKeys.

Variable T : unicode_tables.

Lemma later_rows_keep_keys (term_column : str) (rows : list (gmap str (option str))) :
  forall (terms result : gmap str str) (key : str),
    for_each (record_original T term_column) rows terms = Returns result ->
    key ∈ dom terms -> key ∈ dom result.
Proof.
  induction rows as [|row rows IH]; intros terms result key Hres Hkey.
  - injection Hres as <-. exact Hkey.
  - rewrite for_each_cons in Hres.
    destruct (record_original T term_column terms row) as [terms1 | e] eqn:Hrow;
      [|discriminate].
    simpl in Hres. apply (IH terms1 result key Hres).
    unfold record_original in Hrow.
    destruct (row_term T term_column row) as [term | e]; [|discriminate].
    simpl in Hrow.
    destruct (nonempty term); [|injection Hrow as <-; exact Hkey].
    destruct (nonempty (normalize_term T term)); injection Hrow as <-;
      [|exact Hkey].
    rewrite dom_insert. apply elem_of_union. right. exact Hkey.
Qed.

Lemma row_key_is_kept (term_column : str) (rows : list (gmap str (option str)))
    (row : gmap str (option str)) (term : str) (result : gmap str str) :
  for_each (record_original T term_column) rows ∅ = Returns result ->
  row ∈ rows ->
  row_term T term_column row = Returns term ->
  normalize_term T term <> [] ->
  normalize_term T term ∈ dom result.
Proof.
  intros Hres Hin Hterm Hkey.
  apply list_elem_of_split in Hin as (before & after & ->).
  rewrite for_each_app in Hres.
  destruct (for_each (record_original T term_column) before ∅) as [seen | e];
    [|discriminate].
  simpl in Hres. rewrite for_each_cons in Hres.
  assert (Hrow : record_original T term_column seen row
                 = Returns (<[ normalize_term T term := term ]> seen)).
  { unfold record_original. rewrite Hterm. simpl.
    apply nonempty_true in Hkey. rewrite Hkey.
    destruct term; [discriminate Hkey | reflexivity]. }
  rewrite Hrow in Hres. simpl in Hres.
  eapply later_rows_keep_keys; [exact Hres|].
  rewrite dom_insert. apply elem_of_union. left. apply elem_of_singleton. reflexivity.
Qed.

(** X11: The set [extract_terms_from_csv] returns is exactly the set of non-empty
    canonical keys of the rows' stripped term fields: every such key is in
    it whatever the order of the rows, and nothing else is. *)
Theorem extracted_keys_characterised (records : list (list str)) (keys : gset str)
    (term_column : str) (key : str) :
  extract_terms_from_csv T records = Returns keys ->
  find_term_column T (fieldnames_of records) = Some term_column ->
  key ∈ keys
  <-> key <> []
      /\ exists row term,
           row ∈ dict_rows records
           /\ row_term T term_column row = Returns term
           /\ normalize_term T term = key.
Proof.
  intros Hkeys Hcol. rewrite from_csv_is_dom in Hkeys.
  destruct (extract_terms_with_original T records) as [terms | e] eqn:Hres;
    [|discriminate].
  injection Hkeys as <-. split.
  - intros Hin. apply elem_of_dom in Hin as [original Horig].
    destruct (originals_spell_keys T records terms Hres key original Horig)
      as (Hnorm & Hne & _ & col & row & Hcol' & Hrow & Hterm).
    rewrite Hcol in Hcol'. injection Hcol' as <-. eauto 6.
  - intros (Hne & row & term & Hrow & Hterm & <-).
    unfold extract_terms_with_original in Hres. rewrite Hcol in Hres.
    eapply row_key_is_kept; eassumption.
Qed.

End MoreKeys.

(** ** The comparison of two term files *)

(** X13: The optional mappings of the term comparator change the three sets of
    terms it reports and nothing else: its scores and counters are those of
    the model comparator on the same two sets. *)
Theorem csv_metrics_ignore_the_mappings (reference evaluated : gset str)
    (reference_original evaluated_original : option (gmap str str)) :
  let m := TermsCsv.calculate_metrics reference evaluated reference_original
             evaluated_original in
  let n := calculate_metrics reference evaluated in
  TermsCsv.precision m = precision n /\ TermsCsv.recall m = recall n
  /\ TermsCsv.f1_score m = f1_score n
  /\ TermsCsv.true_positives m = true_positives n
  /\ TermsCsv.false_positives m = false_positives n
  /\ TermsCsv.false_negatives m = false_negatives n.
Proof.
  cbv zeta. unfold TermsCsv.calculate_metrics, calculate_metrics.
  destruct (TermsCsv.truthy_dict reference_original
            && TermsCsv.truthy_dict evaluated_original); cbn; repeat split.
Qed.

Lemma empty_side (R E : gset str) :
  R = ∅ \/ E = ∅ -> R ∩ E = ∅ /\ E ∖ R = E /\ R ∖ E = R.
Proof. intros [-> | ->]; set_solver. Qed.

Lemma difference_within (X Y : gset str) : X ∖ Y ⊆ X.
Proof. set_solver. Qed.

Section MoreComparison.

Variable T : unicode_tables.
Variable round4 : Q -> Q.

Local Open Scope nat_scope.

Lemma elem_of_sorted (x : str) (l : list str) : x ∈ sorted l <-> x ∈ l.
Proof. unfold sorted. rewrite merge_sort_Permutation. reflexivity. Qed.

Lemma length_sorted (l : list str) : length (sorted l) = length l.
Proof. unfold sorted. rewrite merge_sort_Permutation. reflexivity. Qed.

Lemma size_of_spellings (f : str -> str) (X : gset str) :
  (forall x y, x ∈ X -> y ∈ X -> f x = f y -> x = y) ->
  size (set_map f X : gset str) = size X.
Proof.
  intros Hinj. unfold set_map. rewrite size_list_to_set.
  - rewrite length_fmap. reflexivity.
  - apply NoDup_fmap_2_strong; [|apply NoDup_elements].
    intros x y Hx Hy. apply Hinj; apply elem_of_elements; assumption.
Qed.

Lemma metrics_terms (R E : gset str) (ro eo : option (gmap str str)) :
  let m := TermsCsv.calculate_metrics R E ro eo in
  TermsCsv.true_positives m = size (R ∩ E)
  /\ TermsCsv.false_positives m = size (E ∖ R)
  /\ TermsCsv.false_negatives m = size (R ∖ E)
  /\ TermsCsv.tp_terms m
     = (if TermsCsv.truthy_dict ro && TermsCsv.truthy_dict eo
        then set_map (TermsCsv.original_of eo) (R ∩ E) else R ∩ E)
  /\ TermsCsv.fp_terms m
     = (if TermsCsv.truthy_dict ro && TermsCsv.truthy_dict eo
        then set_map (TermsCsv.original_of eo) (E ∖ R) else E ∖ R)
  /\ TermsCsv.fn_terms m
     = (if TermsCsv.truthy_dict ro && TermsCsv.truthy_dict eo
        then set_map (TermsCsv.original_of ro) (R ∖ E) else R ∖ E).
Proof.
  unfold TermsCsv.calculate_metrics.
  destruct (TermsCsv.truthy_dict ro && TermsCsv.truthy_dict eo); cbn; repeat split.
Qed.


Lemma original_of_inj (originals : gmap str str) (X : gset str) :
  map_Forall (fun key original => normalize_term T original = key) originals ->
  X ⊆ dom originals ->
  forall x y, x ∈ X -> y ∈ X ->
    TermsCsv.original_of (Some originals) x = TermsCsv.original_of (Some originals) y ->
    x = y.
Proof.
  intros Hkeys Hsub x y Hx Hy. unfold TermsCsv.original_of.
  apply Hsub, elem_of_dom in Hx as [vx Hvx]. apply Hsub, elem_of_dom in Hy as [vy Hvy].
  rewrite Hvx, Hvy. simpl. intros ->.
  rewrite <- (Hkeys x vy Hvx). exact (Hkeys y vy Hvy).
Qed.

Lemma keys_normalise (records : list (list str)) (terms : gmap str str) :
  extract_terms_with_original T records = Returns terms ->
  map_Forall (fun key original => normalize_term T original = key) terms.
Proof.
  intros Hres key original Hkey.
  exact (proj1 (originals_spell_keys T records terms Hres key original Hkey)).
Qed.

Lemma compare_csv_files_returns (reference_path : str)
    (reference_records : list (list str)) (model_path : str)
    (model_records : list (list str)) (file_type : str) (c : TermsCsv.CsvComparison) :
  TermsCsv.compare_csv_files T round4 reference_path reference_records model_path
    model_records file_type = Returns c ->
  exists reference_original model_original,
    extract_terms_with_original T reference_records = Returns reference_original
    /\ extract_terms_with_original T model_records = Returns model_original
    /\ let metrics :=
         TermsCsv.calculate_metrics (dom reference_original) (dom model_original)
           (Some reference_original) (Some model_original) in
       TermsCsv.reference_count c = size (dom reference_original)
       /\ TermsCsv.model_count c = size (dom model_original)
       /\ TermsCsv.metric_true_positives c = TermsCsv.true_positives metrics
       /\ TermsCsv.metric_false_positives c = TermsCsv.false_positives metrics
       /\ TermsCsv.metric_false_negatives c = TermsCsv.false_negatives metrics
       /\ TermsCsv.matched_terms c = sorted (elements (TermsCsv.tp_terms metrics))
       /\ TermsCsv.detail_false_positives c
          = sorted (elements (TermsCsv.fp_terms metrics))
       /\ TermsCsv.detail_false_negatives c
          = sorted (elements (TermsCsv.fn_terms metrics)).
Proof.
  unfold TermsCsv.compare_csv_files.
  destruct (extract_terms_with_original T reference_records) as [ro | e];
    [|discriminate].
  destruct (extract_terms_with_original T model_records) as [mo | e];
    [|discriminate].
  simpl. intros [= <-]. exists ro, mo. cbn. repeat split.
Qed.

(** X14: In the result of [compare_csv_files] the numbers fit together: the
    reference holds the matched and the missed terms, the model the matched
    and the surplus ones, and each of the three detail lists has as many
    entries as its counter says, also after the keys are mapped back to
    original spellings. *)
Theorem csv_counts_add_up (reference_path : str) (reference_records : list (list str))
    (model_path : str) (model_records : list (list str)) (file_type : str)
    (c : TermsCsv.CsvComparison) :
  TermsCsv.compare_csv_files T round4 reference_path reference_records model_path
    model_records file_type = Returns c ->
  TermsCsv.reference_count c
  = TermsCsv.metric_true_positives c + TermsCsv.metric_false_negatives c
  /\ TermsCsv.model_count c
     = TermsCsv.metric_true_positives c + TermsCsv.metric_false_positives c
  /\ length (TermsCsv.matched_terms c) = TermsCsv.metric_true_positives c
  /\ length (TermsCsv.detail_false_positives c) = TermsCsv.metric_false_positives c
  /\ length (TermsCsv.detail_false_negatives c) = TermsCsv.metric_false_negatives c.
Proof.
  intros Hc.
  destruct (compare_csv_files_returns _ _ _ _ _ _ Hc)
    as (ro & mo & Hro & Hmo & HR & HE & Htp & Hfp & Hfn & Hm & Hp & Hn).
  pose proof (metrics_terms (dom ro) (dom mo) (Some ro) (Some mo))
    as (Etp & Efp & Efn & Ftp & Ffp & Ffn).
  cbv zeta in *.
  rewrite HR, HE, Htp, Hfp, Hfn, Hm, Hp, Hn, Etp, Efp, Efn, Ftp, Ffp, Ffn,
    !length_sorted.
  pose proof (metrics_split (dom ro) (dom mo)) as [H1 H2].
  split; [symmetry; exact H1|]. split; [symmetry; exact H2|].
  pose proof (keys_normalise _ _ Hro) as Kro.
  pose proof (keys_normalise _ _ Hmo) as Kmo.
  destruct (TermsCsv.truthy_dict (Some ro) && TermsCsv.truthy_dict (Some mo));
    [|repeat split].
  repeat split; apply size_of_spellings.
  - apply (original_of_inj mo); [exact Kmo | apply intersection_subseteq_r].
  - apply (original_of_inj mo); [exact Kmo | apply difference_within].
  - apply (original_of_inj ro); [exact Kro | apply difference_within].
Qed.

Lemma elem_of_spellings (originals : gmap str str) (X : gset str) (t : str) :
  map_Forall (fun key original => normalize_term T original = key) originals ->
  X ⊆ dom originals ->
  t ∈ (set_map (TermsCsv.original_of (Some originals)) X : gset str)
  <-> originals !! normalize_term T t = Some t /\ normalize_term T t ∈ X.
Proof.
  intros Hkeys Hsub. rewrite elem_of_map. unfold TermsCsv.original_of. split.
  - intros (k & -> & Hk). pose proof Hk as Hd.
    apply Hsub, elem_of_dom in Hd as [v Hv]. rewrite Hv. simpl.
    rewrite (Hkeys k v Hv). auto.
  - intros [Ht Hin]. exists (normalize_term T t). rewrite Ht. auto.
Qed.

(** X15: When both files hold terms, the detail lists show original spellings: a
    matched or surplus term is the model's spelling of its key, a missed term
    the reference's, and the key decides the list. *)
Theorem details_use_original_spellings (reference_path : str)
    (reference_records : list (list str)) (model_path : str)
    (model_records : list (list str)) (file_type : str)
    (c : TermsCsv.CsvComparison) (reference_original model_original : gmap str str)
    (t : str) :
  extract_terms_with_original T reference_records = Returns reference_original ->
  extract_terms_with_original T model_records = Returns model_original ->
  TermsCsv.compare_csv_files T round4 reference_path reference_records model_path
    model_records file_type = Returns c ->
  reference_original <> ∅ ->
  model_original <> ∅ ->
  (t ∈ TermsCsv.matched_terms c
   <-> model_original !! normalize_term T t = Some t
       /\ normalize_term T t ∈ dom reference_original)
  /\ (t ∈ TermsCsv.detail_false_positives c
      <-> model_original !! normalize_term T t = Some t
          /\ normalize_term T t ∉ dom reference_original)
  /\ (t ∈ TermsCsv.detail_false_negatives c
      <-> reference_original !! normalize_term T t = Some t
          /\ normalize_term T t ∉ dom model_original).
Proof.
  intros Hro Hmo Hc Hrne Hmne.
  destruct (compare_csv_files_returns _ _ _ _ _ _ Hc)
    as (ro & mo & Hro' & Hmo' & _ & _ & _ & _ & _ & Hm & Hp & Hn).
  rewrite Hro in Hro'. rewrite Hmo in Hmo'.
  injection Hro' as <-. injection Hmo' as <-.
  pose proof (metrics_terms (dom reference_original) (dom model_original)
                (Some reference_original) (Some model_original))
    as (_ & _ & _ & Ftp & Ffp & Ffn).
  cbv zeta in *. rewrite Hm, Hp, Hn, Ftp, Ffp, Ffn, !elem_of_sorted, !elem_of_elements.
  unfold TermsCsv.truthy_dict.
  rewrite !bool_decide_eq_true_2 by assumption. cbn [andb].
  pose proof (keys_normalise _ _ Hro) as Kro.
  pose proof (keys_normalise _ _ Hmo) as Kmo.
  rewrite !elem_of_spellings
    by (assumption || apply intersection_subseteq_r || apply difference_within).
  rewrite elem_of_intersection, !elem_of_difference.
  assert (Hdom : forall (m : gmap str str) k v, m !! k = Some v -> k ∈ dom m)
    by (intros m k v Hv; apply elem_of_dom; eauto).
  split; [|split]; (split; [tauto | intros [Ht Hin]; eauto 6]).
Qed.

(** X16: When one of the two files holds no term, nothing is mapped back: no term
    is matched, and the two other lists are the sorted canonical keys of the
    model and of the reference. *)
Theorem empty_side_lists_canonical_keys (reference_path : str)
    (reference_records : list (list str)) (model_path : str)
    (model_records : list (list str)) (file_type : str)
    (c : TermsCsv.CsvComparison) (reference_original model_original : gmap str str) :
  extract_terms_with_original T reference_records = Returns reference_original ->
  extract_terms_with_original T model_records = Returns model_original ->
  TermsCsv.compare_csv_files T round4 reference_path reference_records model_path
    model_records file_type = Returns c ->
  reference_original = ∅ \/ model_original = ∅ ->
  TermsCsv.matched_terms c = []
  /\ TermsCsv.detail_false_positives c = sorted (elements (dom model_original))
  /\ TermsCsv.detail_false_negatives c = sorted (elements (dom reference_original)).
Proof.
  intros Hro Hmo Hc Hempty.
  destruct (compare_csv_files_returns _ _ _ _ _ _ Hc)
    as (ro & mo & Hro' & Hmo' & _ & _ & _ & _ & _ & Hm & Hp & Hn).
  rewrite Hro in Hro'. rewrite Hmo in Hmo'.
  injection Hro' as <-. injection Hmo' as <-.
  pose proof (metrics_terms (dom reference_original) (dom model_original)
                (Some reference_original) (Some model_original))
    as (_ & _ & _ & Ftp & Ffp & Ffn).
  cbv zeta in *. rewrite Hm, Hp, Hn, Ftp, Ffp, Ffn.
  assert (Hfalsy : TermsCsv.truthy_dict (Some reference_original)
                   && TermsCsv.truthy_dict (Some model_original) = false).
  { unfold TermsCsv.truthy_dict. apply andb_false_iff.
    destruct Hempty as [-> | ->]; [left | right];
      apply bool_decide_eq_false_2; intros Hne; apply Hne; reflexivity. }
  rewrite Hfalsy.
  destruct (empty_side (dom reference_original) (dom model_original))
    as (Hnone & Hfp & Hfn);
    [destruct Hempty as [-> | ->]; [left | right]; apply dom_empty_L|].
  rewrite Hnone, Hfp, Hfn, elements_empty. repeat split.
Qed.

End MoreComparison.

(** ** Comment removal *)

Section MoreComments.

Variable T : unicode_tables.

(** From any place of a line, [.*?$] stops at the end of that line. *)
Lemma rep_lazy_line {R} (g : nat -> R) rest : forall cur (k : cursor -> option R),
  (forall cur', k cur' = if at_eol MULTILINE cur' then Some (g (pos cur')) else None) ->
  ahead cur = rest ->
  rep_lazy T MULTILINE Any 0 cur rest k = Some (g (pos cur + line_rest rest)%nat).
Proof.
  induction rest as [|c rest IH]; intros cur k Hk Hc; simpl; rewrite Hk.
  - unfold at_eol. rewrite Hc, Nat.add_0_r. reflexivity.
  - unfold at_eol. rewrite Hc. cbn [multiline MULTILINE andb orb].
    rewrite andb_true_r. destruct (c =? newline) eqn:E;
      [rewrite Nat.add_0_r; reflexivity|].
    cbn [negb]. rewrite (IH (advance c rest cur) k Hk eq_refl).
    simpl. do 2 f_equal. lia.
Qed.

Lemma line_comment_span cur rest :
  ahead cur = apostrophe :: rest ->
  match_at T MULTILINE line_comment cur
  = Some {| m_start := pos cur; m_end := S (pos cur + line_rest rest);
            m_groups := [] |}.
Proof.
  intros Hc. unfold match_at.
  change line_comment
    with (Seq (Chr (One (ILit apostrophe))) (Seq (Rep false 0 Any) (Seq Eol Eps))).
  cbn [exec]. rewrite Hc.
  replace (cset_mem T MULTILINE (One (ILit apostrophe)) apostrophe) with true
    by (vm_compute; reflexivity).
  cbn [ahead advance].
  rewrite (rep_lazy_line
             (fun e => {| m_start := pos cur; m_end := e; m_groups := [] |})
             rest (advance apostrophe rest cur)
             (fun cur' => if at_eol MULTILINE cur'
                          then Some {| m_start := pos cur; m_end := pos cur';
                                       m_groups := [] |}
                          else None)) by reflexivity.
  reflexivity.
Qed.

Lemma erase_line_comments text : forall cur,
  ahead cur = text ->
  erase T MULTILINE line_comment cur text 0 = cut_lines false text
  /\ erase T MULTILINE line_comment cur text (line_rest text) = cut_lines true text.
Proof.
  induction text as [|c rest IH]; intros cur Hc; [split; reflexivity|].
  destruct (IH (advance c rest cur) eq_refl) as [IH0 IH1].
  assert (Hfirst : erase T MULTILINE line_comment cur (c :: rest) 0
                   = cut_lines false (c :: rest)).
  { cbn [erase cut_lines]. destruct (N.eqb_spec c apostrophe) as [-> | Hne].
    - rewrite (line_comment_span cur rest Hc). cbn [m_start m_end].
      replace (S (pos cur + line_rest rest) - pos cur)%nat with (S (line_rest rest))
        by lia.
      exact IH1.
    - rewrite (line_comment_needs_apostrophe T cur c rest Hc Hne), IH0. reflexivity. }
  split; [exact Hfirst|].
  cbn [line_rest]. destruct (c =? newline) eqn:E.
  - rewrite Hfirst. cbn [cut_lines]. rewrite E.
    apply N.eqb_eq in E. subst c. reflexivity.
  - cbn [erase cut_lines]. rewrite E. exact IH1.
Qed.

(** X8: Comment removal, read off the text: the first substitution cuts every
    line at its first apostrophe and keeps the line break, whatever the
    apostrophe is part of; block comments are removed from what is left. *)
Theorem line_comments_cut_each_line (text : str) :
  re_sub_empty T MULTILINE line_comment text = cut_lines false text
  /\ remove_comments T text
     = re_sub_empty T DOTALL block_comment (cut_lines false text).
Proof.
  assert (Hcut : re_sub_empty T MULTILINE line_comment text = cut_lines false text)
    by (apply erase_line_comments; reflexivity).
  split; [exact Hcut|]. unfold remove_comments. rewrite Hcut. reflexivity.
Qed.

End MoreComments.

(** ** The itemised differences *)

Lemma str_le_total : Total str_le.
Proof.
  intros a. unfold str_le. induction a as [|x a IH]; intros b; [left; reflexivity|].
  destruct b as [|y b]; [right; reflexivity|]. cbn [str_leb].
  destruct (N.ltb_spec x y), (N.ltb_spec y x); auto; lia.
Qed.

Lemma str_le_trans : Transitive str_le.
Proof.
  intros a. unfold str_le. induction a as [|x a IH]; intros b c Hab Hbc; [reflexivity|].
  destruct b as [|y b]; [discriminate|]. destruct c as [|z c]; [discriminate|].
  cbn [str_leb] in *.
  destruct (N.ltb_spec x y), (N.ltb_spec y x), (N.ltb_spec y z), (N.ltb_spec z y),
    (N.ltb_spec x z), (N.ltb_spec z x);
    try reflexivity; try discriminate; try lia.
  eapply IH; eassumption.
Qed.

Lemma sorted_ascending (l : list str) : StronglySorted str_le (sorted l).
Proof. exact (@StronglySorted_merge_sort _ str_le _ str_le_trans str_le_total l). Qed.

Lemma sorted_Permutation (l : list str) : sorted l ≡ₚ l.
Proof. apply merge_sort_Permutation. Qed.

Lemma elem_of_sorted_items {A} `{Countable A} (f : A -> str) (X : gset A) (x : str) :
  x ∈ sorted (map f (elements X)) <-> exists a, x = f a /\ a ∈ X.
Proof.
  rewrite sorted_Permutation. change (map f (elements X)) with (f <$> elements X).
  rewrite list_elem_of_fmap. split; intros (a & -> & Ha); exists a;
    (split; [reflexivity | apply elem_of_elements, Ha]).
Qed.

Lemma length_sorted_items {A} `{Countable A} (f : A -> str) (X : gset A) :
  length (sorted (map f (elements X))) = size X.
Proof. rewrite sorted_Permutation, length_map. reflexivity. Qed.

Lemma elem_of_sorted_difference (X Y : gset str) (x : str) :
  x ∈ sorted (elements (X ∖ Y)) <-> x ∈ X /\ x ∉ Y.
Proof. rewrite sorted_Permutation, elem_of_elements. apply elem_of_difference. Qed.

Lemma elem_of_sorted_rendered {A} `{Countable A} (f : A -> str) (X Y : gset A)
    (x : str) :
  x ∈ sorted (map f (elements (X ∖ Y))) <-> exists a, x = f a /\ a ∈ X /\ a ∉ Y.
Proof.
  rewrite elem_of_sorted_items. split; intros (a & -> & Ha); exists a;
    (split; [reflexivity | apply elem_of_difference, Ha]).
Qed.

(** X17: The six lists of [differences] itemise the set differences: a class key
    is listed as missing exactly when the reference has it and the model has
    not, as extra in the opposite case; relationships and attributes are
    listed likewise, rendered as [source -type-> target] and
    [owner.attribute]. *)
Theorem differences_itemise_the_errors (reference model : ModelElements) :
  let d := differences reference model in
  (forall x, x ∈ missing_classes d <-> x ∈ classes reference /\ x ∉ classes model)
  /\ (forall x, x ∈ extra_classes d <-> x ∈ classes model /\ x ∉ classes reference)
  /\ (forall x, x ∈ missing_relationships d
        <-> exists s t e, x = s ++ lit " -" ++ t ++ lit "-> " ++ e
              /\ (s, t, e) ∈ relationships reference
              /\ (s, t, e) ∉ relationships model)
  /\ (forall x, x ∈ extra_relationships d
        <-> exists s t e, x = s ++ lit " -" ++ t ++ lit "-> " ++ e
              /\ (s, t, e) ∈ relationships model
              /\ (s, t, e) ∉ relationships reference)
  /\ (forall x, x ∈ missing_attributes d
        <-> exists c a, x = c ++ lit "." ++ a
              /\ (c, a) ∈ attributes reference /\ (c, a) ∉ attributes model)
  /\ (forall x, x ∈ extra_attributes d
        <-> exists c a, x = c ++ lit "." ++ a
              /\ (c, a) ∈ attributes model /\ (c, a) ∉ attributes reference).
Proof.
  cbv zeta. unfold differences.
  cbn [missing_classes extra_classes missing_relationships extra_relationships
       missing_attributes extra_attributes].
  repeat apply conj; intros x;
    rewrite ?elem_of_sorted_difference, ?elem_of_sorted_rendered;
    try reflexivity.
  1-2: split; [intros ([[s t] e] & -> & Ha); exists s, t, e; auto
               | intros (s & t & e & -> & Ha); exists (s, t, e); auto].
  all: split; [intros ([c a] & -> & Ha); exists c, a; auto
               | intros (c & a & -> & Ha); exists (c, a); auto].
Qed.

(** X18: Each list of [differences] is in ascending order and has as many entries
    as the matching counter of the metrics: missing items are the false
    negatives of their kind, extra items the false positives. *)
Theorem differences_match_the_counts (reference model : ModelElements) :
  let d := differences reference model in
  let c := compare_model reference model in
  (length (missing_classes d) = false_negatives (class_metrics c)
   /\ length (extra_classes d) = false_positives (class_metrics c)
   /\ length (missing_relationships d) = false_negatives (relationship_metrics c)
   /\ length (extra_relationships d) = false_positives (relationship_metrics c)
   /\ length (missing_attributes d) = false_negatives (attribute_metrics c)
   /\ length (extra_attributes d) = false_positives (attribute_metrics c))
  /\ Forall (StronglySorted str_le)
       [missing_classes d; extra_classes d; missing_relationships d;
        extra_relationships d; missing_attributes d; extra_attributes d].
Proof.
  cbv zeta. unfold differences, compare_model, calculate_metrics.
  cbn [missing_classes extra_classes missing_relationships extra_relationships
       missing_attributes extra_attributes class_metrics relationship_metrics
       attribute_metrics false_negatives false_positives].
  split.
  - rewrite !length_sorted_items. unfold sorted.
    rewrite !merge_sort_Permutation. repeat split.
  - repeat constructor; apply sorted_ascending.
Qed.

Lemma app_sep_inj (c : N) (s1 : str) : forall (s2 r1 r2 : str),
  ~ In c s1 -> ~ In c s2 -> s1 ++ c :: r1 = s2 ++ c :: r2 -> s1 = s2 /\ r1 = r2.
Proof.
  induction s1 as [|x s1 IH]; intros [|y s2] r1 r2 H1 H2 Heq; simpl in *.
  - injection Heq as ->. auto.
  - injection Heq as <- _. tauto.
  - injection Heq as -> _. tauto.
  - injection Heq as -> Heq.
    destruct (IH s2 r1 r2) as [-> ->]; auto.
Qed.

Lemma render_relationship_inj (s1 t1 e1 s2 t2 e2 : str) :
  ~ In (ch " ") s1 -> ~ In (ch " ") s2 -> ~ In (ch "-") t1 -> ~ In (ch "-") t2 ->
  render_relationship (s1, t1, e1) = render_relationship (s2, t2, e2) ->
  (s1, t1, e1) = (s2, t2, e2).
Proof.
  intros Hs1 Hs2 Ht1 Ht2. unfold render_relationship.
  change (lit " -") with [ch " "; ch "-"].
  change (lit "-> ") with [ch "-"; ch ">"; ch " "].
  cbn [app]. intros Heq.
  apply app_sep_inj in Heq as [-> Heq]; [|assumption..].
  injection Heq as Heq.
  apply app_sep_inj in Heq as [-> Heq]; [|assumption..].
  injection Heq as ->. reflexivity.
Qed.

Lemma kinds_have_no_dash (t : str) : t ∈ relationship_kinds -> ~ In (ch "-") t.
Proof.
  unfold relationship_kinds. rewrite !elem_of_cons, elem_of_nil.
  intros Hin. repeat destruct Hin as [-> | Hin]; [..|destruct Hin];
    cbv; intuition discriminate.
Qed.

Section MoreDifferences.

Variable T : unicode_tables.

Lemma clean_has_no_space (s : str) :
  Forall (fun c => is_space T c = false /\ c <> underscore) s -> ~ In (ch " ") s.
Proof.
  intros Hs Hin. rewrite Forall_forall in Hs.
  apply list_elem_of_In in Hin. destruct (Hs _ Hin) as [Hsp _].
  cbv in Hsp. discriminate.
Qed.

Lemma rendered_distinct (X : gset (str * str * str)) :
  (forall s t e, (s, t, e) ∈ X -> ~ In (ch " ") s /\ ~ In (ch "-") t) ->
  NoDup (sorted (map render_relationship (elements X))).
Proof.
  intros HX. rewrite sorted_Permutation.
  apply (NoDup_fmap_2_strong render_relationship); [|apply NoDup_elements].
  intros [[s1 t1] e1] [[s2 t2] e2] H1 H2.
  apply elem_of_elements, HX in H1 as [? ?].
  apply elem_of_elements, HX in H2 as [? ?].
  apply render_relationship_inj; assumption.
Qed.

(** X19: For two parsed documents no entry of the class lists or of the
    relationship lists is repeated: a rendered relationship names one
    relationship only, because keys hold no blank and types no dash. *)
Theorem difference_lists_have_no_repeats (reference_text model_text : str) :
  let d := differences (parse_plantuml_file T reference_text)
                       (parse_plantuml_file T model_text) in
  NoDup (missing_classes d) /\ NoDup (extra_classes d)
  /\ NoDup (missing_relationships d) /\ NoDup (extra_relationships d).
Proof.
  cbv zeta. unfold differences.
  cbn [missing_classes extra_classes missing_relationships extra_relationships].
  assert (Hkeys : forall text s t e,
            (s, t, e) ∈ relationships (parse_plantuml_file T text) ->
            ~ In (ch " ") s /\ ~ In (ch "-") t).
  { intros text s t e Hin.
    destruct (model_keys_clean T text) as (_ & Hrel & _).
    destruct (Hrel s t e Hin) as (Hs & Ht & _).
    split; [apply clean_has_no_space, Hs | apply kinds_have_no_dash, Ht]. }
  repeat split.
  1-2: rewrite sorted_Permutation; apply NoDup_elements.
  all: apply rendered_distinct; intros s t e Hin;
    apply elem_of_difference in Hin as [Hin _]; eapply Hkeys, Hin.
Qed.

End MoreDifferences.

(** ** Concrete runs of the further properties *)

Lemma qualified_name_collapses_witness :
  simple_name_of (lit "com.acme" ++ ch "." :: lit "Order") = lit "Order"
  /\ normalize_identifier cpython_fragment
       (simple_name_of (lit "com.acme" ++ ch "." :: lit "Order"))
     = normalize_identifier cpython_fragment (simple_name_of (lit "Order"))
  /\ normalize_identifier cpython_fragment (simple_name_of (lit "com.acme" ++ [ch "."]))
     = [].
Proof.
  apply (qualified_name_collapses cpython_fragment (lit "com.acme") (lit "Order")).
  reflexivity.
Defined.

Lemma normalize_ascii_closed_form_witness :
  normalize_identifier cpython_fragment (lit " API_Gateway (v2) ")
  = map ascii_lower (List.filter ascii_isalnum (lit " API_Gateway (v2) "))
  /\ normalize_term cpython_fragment (lit " API_Gateway (v2) ")
     = map ascii_lower (List.filter ascii_isalnum (lit " API_Gateway (v2) ")).
Proof.
  apply (normalize_ascii_closed_form cpython_fragment (lit " API_Gateway (v2) ")).
  repeat constructor.
Defined.

Lemma original_spells_its_key_witness :
  normalize_term cpython_fragment (lit "API Gateway") = lit "apigateway"
  /\ lit "apigateway" <> []
  /\ lit "API Gateway" <> []
  /\ exists term_column row,
       find_term_column cpython_fragment
         (fieldnames_of [[lit "id"; lit " Term "]; [lit "1"; lit " API Gateway "]])
       = Some term_column
       /\ row ∈ dict_rows [[lit "id"; lit " Term "]; [lit "1"; lit " API Gateway "]]
       /\ row_term cpython_fragment term_column row = Returns (lit "API Gateway").
Proof.
  apply (original_spells_its_key cpython_fragment
           [[lit "id"; lit " Term "]; [lit "1"; lit " API Gateway "]]
           {[ lit "apigateway" := lit "API Gateway" ]}
           (lit "apigateway") (lit "API Gateway")).
  - vm_compute; reflexivity.
  - vm_compute; reflexivity.
Defined.

Lemma full_rows_never_raise_witness :
  exists terms,
    extract_terms_with_original cpython_fragment
      [[lit "id"; lit "term"]; []; [lit "1"; lit "API Gateway"; lit "surplus"]]
    = Returns terms
    /\ extract_terms_from_csv cpython_fragment
         [[lit "id"; lit "term"]; []; [lit "1"; lit "API Gateway"; lit "surplus"]]
       = Returns (dom terms).
Proof.
  apply (full_rows_never_raise cpython_fragment
           [[lit "id"; lit "term"]; []; [lit "1"; lit "API Gateway"; lit "surplus"]]
           (lit "term")).
  - vm_compute; reflexivity.
  - constructor; [left; reflexivity|].
    constructor; [right; simpl; lia|]. constructor.
Defined.

Lemma extracted_keys_characterised_witness :
  lit "apigateway" ∈ ({[ lit "apigateway" ]} : gset str)
  <-> lit "apigateway" <> []
      /\ exists row term,
           row ∈ dict_rows [[lit "term"]; [lit "API Gateway"]; [lit "api_gateway"]]
           /\ row_term cpython_fragment (lit "term") row = Returns term
           /\ normalize_term cpython_fragment term = lit "apigateway".
Proof.
  apply (extracted_keys_characterised cpython_fragment
           [[lit "term"]; [lit "API Gateway"]; [lit "api_gateway"]]
           {[ lit "apigateway" ]} (lit "term") (lit "apigateway")).
  - vm_compute; reflexivity.
  - vm_compute; reflexivity.
Defined.

Lemma csv_counts_add_up_witness :
  exists c,
    TermsCsv.compare_csv_files cpython_fragment Qred
      (lit "reference.csv") [[lit "term"]; [lit "API Gateway"]; [lit "Order"]]
      (lit "model.csv") [[lit "term"]; [lit "api_gateway"]; [lit "Invoice"]]
      (lit "terms")
    = Returns c
    /\ TermsCsv.reference_count c
       = (TermsCsv.metric_true_positives c + TermsCsv.metric_false_negatives c)%nat
    /\ TermsCsv.model_count c
       = (TermsCsv.metric_true_positives c + TermsCsv.metric_false_positives c)%nat
    /\ length (TermsCsv.matched_terms c) = TermsCsv.metric_true_positives c
    /\ length (TermsCsv.detail_false_positives c) = TermsCsv.metric_false_positives c
    /\ length (TermsCsv.detail_false_negatives c) = TermsCsv.metric_false_negatives c.
Proof.
  destruct (TermsCsv.compare_csv_files cpython_fragment Qred
              (lit "reference.csv") [[lit "term"]; [lit "API Gateway"]; [lit "Order"]]
              (lit "model.csv") [[lit "term"]; [lit "api_gateway"]; [lit "Invoice"]]
              (lit "terms")) as [c | e] eqn:Hc.
  - exists c. split; [reflexivity|].
    exact (csv_counts_add_up cpython_fragment Qred _ _ _ _ _ c Hc).
  - vm_compute in Hc. discriminate Hc.
Defined.

Lemma details_use_original_spellings_witness :
  exists c,
    TermsCsv.compare_csv_files cpython_fragment Qred
      (lit "reference.csv") [[lit "term"]; [lit "API Gateway"]; [lit "Order"]]
      (lit "model.csv") [[lit "term"]; [lit "api_gateway"]; [lit "Invoice"]]
      (lit "terms")
    = Returns c
    /\ (lit "api_gateway" ∈ TermsCsv.matched_terms c
        <-> ({[ lit "apigateway" := lit "api_gateway"; lit "invoice" := lit "Invoice" ]}
               : gmap str str)
              !! normalize_term cpython_fragment (lit "api_gateway")
            = Some (lit "api_gateway")
            /\ normalize_term cpython_fragment (lit "api_gateway")
               ∈ dom ({[ lit "apigateway" := lit "API Gateway";
                         lit "order" := lit "Order" ]} : gmap str str))
    /\ (lit "api_gateway" ∈ TermsCsv.detail_false_positives c
        <-> ({[ lit "apigateway" := lit "api_gateway"; lit "invoice" := lit "Invoice" ]}
               : gmap str str)
              !! normalize_term cpython_fragment (lit "api_gateway")
            = Some (lit "api_gateway")
            /\ normalize_term cpython_fragment (lit "api_gateway")
               ∉ dom ({[ lit "apigateway" := lit "API Gateway";
                         lit "order" := lit "Order" ]} : gmap str str))
    /\ (lit "api_gateway" ∈ TermsCsv.detail_false_negatives c
        <-> ({[ lit "apigateway" := lit "API Gateway"; lit "order" := lit "Order" ]}
               : gmap str str)
              !! normalize_term cpython_fragment (lit "api_gateway")
            = Some (lit "api_gateway")
            /\ normalize_term cpython_fragment (lit "api_gateway")
               ∉ dom ({[ lit "apigateway" := lit "api_gateway";
                         lit "invoice" := lit "Invoice" ]} : gmap str str)).
Proof.
  destruct (TermsCsv.compare_csv_files cpython_fragment Qred
              (lit "reference.csv") [[lit "term"]; [lit "API Gateway"]; [lit "Order"]]
              (lit "model.csv") [[lit "term"]; [lit "api_gateway"]; [lit "Invoice"]]
              (lit "terms")) as [c | e] eqn:Hc.
  - exists c. split; [reflexivity|].
    apply (details_use_original_spellings cpython_fragment Qred
             (lit "reference.csv") [[lit "term"]; [lit "API Gateway"]; [lit "Order"]]
             (lit "model.csv") [[lit "term"]; [lit "api_gateway"]; [lit "Invoice"]]
             (lit "terms") c
             {[ lit "apigateway" := lit "API Gateway"; lit "order" := lit "Order" ]}
             {[ lit "apigateway" := lit "api_gateway"; lit "invoice" := lit "Invoice" ]}
             (lit "api_gateway")).
    + vm_compute; reflexivity.
    + vm_compute; reflexivity.
    + exact Hc.
    + intros Hempty. apply (f_equal size) in Hempty. vm_compute in Hempty.
      discriminate Hempty.
    + intros Hempty. apply (f_equal size) in Hempty. vm_compute in Hempty.
      discriminate Hempty.
  - vm_compute in Hc. discriminate Hc.
Defined.

Lemma empty_side_lists_canonical_keys_witness :
  exists c,
    TermsCsv.compare_csv_files cpython_fragment Qred
      (lit "reference.csv") [[lit "term"]]
      (lit "model.csv") [[lit "term"]; [lit "API Gateway"]]
      (lit "terms")
    = Returns c
    /\ TermsCsv.matched_terms c = []
    /\ TermsCsv.detail_false_positives c
       = sorted (elements (dom ({[ lit "apigateway" := lit "API Gateway" ]}
                                  : gmap str str)))
    /\ TermsCsv.detail_false_negatives c
       = sorted (elements (dom (∅ : gmap str str))).
Proof.
  destruct (TermsCsv.compare_csv_files cpython_fragment Qred
              (lit "reference.csv") [[lit "term"]]
              (lit "model.csv") [[lit "term"]; [lit "API Gateway"]]
              (lit "terms")) as [c | e] eqn:Hc.
  - exists c. split; [reflexivity|].
    apply (empty_side_lists_canonical_keys cpython_fragment Qred
             (lit "reference.csv") [[lit "term"]]
             (lit "model.csv") [[lit "term"]; [lit "API Gateway"]]
             (lit "terms") c ∅ {[ lit "apigateway" := lit "API Gateway" ]}).
    + vm_compute; reflexivity.
    + vm_compute; reflexivity.
    + exact Hc.
    + left. reflexivity.
  - vm_compute in Hc. discriminate Hc.
Defined.
